(** * AsyncCart: a serialized, event-emitting facade over a cart backend

    Shallow embedding of [src/AsyncCart.ts], [src/CartEvent.ts] and
    [src/CartStatusChangeEvent.ts].

    The class is single-threaded JavaScript: a caller invokes a public
    method, the method runs synchronously up to its first [await], and the
    rest runs when the awaited promise settles.  The embedding is a
    transition system over the fields of the class.  Its inputs are the
    two things the outside world can do: invoke a public method, or let
    the provider promise of a running task settle.  Everything the class
    does to the outside (events dispatched, provider operations called,
    errors handed to [onError], promises fulfilled) is appended to a trace,
    so that orderings across these can be stated.

    What is taken for granted: carts are objects, so that [null] is the
    only falsy value of [CT | null]; the two queries and [onError] return
    normally; listeners do not call back into the class while an event is
    being dispatched; a provider promise settles in a later turn, when
    the class has run everything that was ready to run. *)

From stdpp Require Import base strings list gmap.
From Stdlib Require Import Lia.

Set Default Proof Using "Type".

(** Modelled from the spec: the enumeration [CartStatus] of
    [./CartStatus.js], which is imported by the sources but is not among
    them.  The spec gives it exactly three values; the class uses
    [CartStatus.IDLE], [CartStatus.UPDATING] and [CartStatus.READY]. *)
Inductive CartStatus : Set := IDLE | UPDATING | READY.

Section Coordinator.

(** The three opaque shapes the class is generic in ([CT], [BT], [LT]),
    the values a provider promise can reject with, and the state of the
    backend behind the provider operations. *)
Context {CT BT LT Rejection Backend : Type}.

(** [CartCreateInput]: every field is optional; [{}] is [no_input]. *)
Record CartCreateInput : Type := {
  buyer : option BT;
  discountCodes : option (list string);
  attributes : option (gmap string string);
  lineItems : option (list LT)
}.

Definition no_input : CartCreateInput :=
  {| buyer := None; discountCodes := None; attributes := None; lineItems := None |}.

(** What can be caught by the [catch] of [runCartOperation]: a rejection of
    a provider promise, or an [Error] object made by [new Error(message)]. *)
Inductive thrown : Type :=
  | Rejected (r : Rejection)
  | Error (message : string).

(** How a promise of a cart settles. *)
Inductive settlement : Type :=
  | Resolves (cart : CT)
  | Rejects (err : thrown).

(** A call of one of [config.operations]. *)
Inductive request : Type :=
  | Fetch (id : string)
  | Create (input : CartCreateInput)
  | UpdateBuyer (cart : CT) (input : BT)
  | UpdateDiscountCodes (cart : CT) (input : list string)
  | UpdateAttributes (cart : CT) (input : gmap string string)
  | AddLineItems (cart : CT) (input : list LT)
  | UpdateLineItems (cart : CT) (input : list LT)
  | RemoveLineItems (cart : CT) (input : list string).

(** [ProviderConfig].  The queries are pure.  An operation returns a
    promise; the backend decides how it settles and may change its own
    state.  [onError] has no field here: it is a sink, and its calls are
    recorded in the trace. *)
Record ProviderConfig : Type := {
  queries_cartId : CT -> string;
  queries_cartRevisionId : CT -> string;
  operations_fetch : string -> Backend -> settlement * Backend;
  operations_create : CartCreateInput -> Backend -> settlement * Backend;
  operations_updateBuyer : CT -> BT -> Backend -> settlement * Backend;
  operations_updateDiscountCodes : CT -> list string -> Backend -> settlement * Backend;
  operations_updateAttributes : CT -> gmap string string -> Backend -> settlement * Backend;
  operations_addLineItems : CT -> list LT -> Backend -> settlement * Backend;
  operations_updateLineItems : CT -> list LT -> Backend -> settlement * Backend;
  operations_removeLineItems : CT -> list string -> Backend -> settlement * Backend
}.

(** [CartEvent(name, cart)] and [CartStatusChangeEvent(status)], each with
    its detail payload. *)
Inductive Event : Type :=
  | CartEvent (name : string) (cart : option CT)
  | CartStatusChangeEvent (status : CartStatus).

(** The name an event is dispatched under ([CartEvent.ts], lines 8-12;
    [CartStatusChangeEvent.ts], lines 8-12). *)
Definition event_name (e : Event) : string :=
  match e with
  | CartEvent name _ => name
  | CartStatusChangeEvent _ => "statuschange"
  end.

(** The six public methods that need a cart to act on, with their
    argument. *)
Inductive mutation : Type :=
  | Buyer (input : BT)
  | DiscountCodes (input : list string)
  | Attributes (input : gmap string string)
  | LineItemsAdded (input : list LT)
  | LineItemsUpdated (input : list LT)
  | LineItemsRemoved (input : list string).

(** The closures the public methods hand to [runCartOperation]
    (lines 103, 109, 115, 123, 131, 139, 147, 155). *)
Inductive operation : Type :=
  | FetchById (id : string)
  | CreateWith (input : CartCreateInput)
  | EnsureThen (m : mutation).

(** One invocation of [runCartOperation] that awaits its queue promise:
    its number (invocations are numbered from 0 in the order they are made),
    the closure it submitted, and its locals [result] and
    [currentRevisionId] (lines 77-78). *)
Record invocation : Type := {
  inv_id : nat;
  inv_operation : operation;
  inv_result : option CT;
  inv_currentRevisionId : option string
}.

(** Where a closure that the queue has started is suspended: at the provider
    promise it returned or awaits (with the settlement the backend will
    deliver), or at [await this.create({})] (lines 116, 124, 132, 140, 148,
    156), waiting for invocation [inner] of [runCartOperation]. *)
Inductive suspended : Type :=
  | AtProvider (o : settlement)
  | AtCreate (m : mutation) (inner : nat).

(** Modelled from the spec: the operation serializer ([PQueue] of the
    package p-queue, which is not among the sources).  As the spec has it:
    tasks are kept in submission order, at most [concurrency] of them are
    executing, a task is started as soon as there is room for it, and
    "idle" is reported when the last executing task has settled and nothing
    is waiting.  The class constructs it with [concurrency: 1] and nothing
    else (lines 53-55), and gives [add] the option [throwOnTimeout] without
    a [timeout] (line 86): the queue has no bound on the duration of a
    task, and it settles the promise of [add] when the task settles. *)
Record PQueue : Type := {
  concurrency : nat;
  waiting : list invocation;
  executing : list (invocation * suspended)
}.

(** What the class does that can be seen from outside, in the order it
    happens. *)
Inductive observation : Type :=
  | Dispatch (e : Event)                 (* this.dispatchEvent(e) *)
  | OnError (err : thrown)               (* this._config.onError(err) *)
  | Call (r : request)                   (* a provider operation is called *)
  | Submit (id : nat)                    (* this._queue.add for invocation id *)
  | Start (id : nat)                     (* the queue starts the task of invocation id *)
  | Finish (id : nat) (o : settlement)   (* the task of invocation id settles *)
  | Return (id : nat) (v : option CT).   (* runCartOperation #id is fulfilled with v *)

(** The fields of the class (lines 41-45; [_config] is a parameter of the
    section), the backend, the number of invocations of [runCartOperation]
    made so far and the trace. *)
Record AsyncCart : Type := {
  _status : CartStatus;
  _cart : option CT;
  _previousCartRevisionId : option string;
  _queue : PQueue;
  backend : Backend;
  invocations : nat;
  trace : list observation
}.

Variable _config : ProviderConfig.

(** ** Field updates *)

Definition set_status (st : CartStatus) (s : AsyncCart) : AsyncCart :=
  {| _status := st; _cart := _cart s;
     _previousCartRevisionId := _previousCartRevisionId s;
     _queue := _queue s; backend := backend s;
     invocations := invocations s; trace := trace s |}.

Definition set_cart (c : option CT) (s : AsyncCart) : AsyncCart :=
  {| _status := _status s; _cart := c;
     _previousCartRevisionId := _previousCartRevisionId s;
     _queue := _queue s; backend := backend s;
     invocations := invocations s; trace := trace s |}.

Definition set_previousCartRevisionId (r : option string) (s : AsyncCart) : AsyncCart :=
  {| _status := _status s; _cart := _cart s;
     _previousCartRevisionId := r;
     _queue := _queue s; backend := backend s;
     invocations := invocations s; trace := trace s |}.

Definition set_queue (q : PQueue) (s : AsyncCart) : AsyncCart :=
  {| _status := _status s; _cart := _cart s;
     _previousCartRevisionId := _previousCartRevisionId s;
     _queue := q; backend := backend s;
     invocations := invocations s; trace := trace s |}.

Definition set_backend (b : Backend) (s : AsyncCart) : AsyncCart :=
  {| _status := _status s; _cart := _cart s;
     _previousCartRevisionId := _previousCartRevisionId s;
     _queue := _queue s; backend := b;
     invocations := invocations s; trace := trace s |}.

Definition count_invocation (s : AsyncCart) : AsyncCart :=
  {| _status := _status s; _cart := _cart s;
     _previousCartRevisionId := _previousCartRevisionId s;
     _queue := _queue s; backend := backend s;
     invocations := S (invocations s); trace := trace s |}.

Definition observe (o : observation) (s : AsyncCart) : AsyncCart :=
  {| _status := _status s; _cart := _cart s;
     _previousCartRevisionId := _previousCartRevisionId s;
     _queue := _queue s; backend := backend s;
     invocations := invocations s; trace := trace s ++ [o] |}.

Definition dispatchEvent (e : Event) (s : AsyncCart) : AsyncCart :=
  observe (Dispatch e) s.

Definition onError (err : thrown) (s : AsyncCart) : AsyncCart :=
  observe (OnError err) s.

(** [a !== b] for a revision identifier [a] (a string) and a stored one
    [b] (a string or [null]). *)
Definition differs (a : string) (b : option string) : bool :=
  match b with
  | Some b' => negb (String.eqb a b')
  | None => true
  end.

(** ** The constructor (lines 47-66) *)

Definition new_PQueue (n : nat) : PQueue :=
  {| concurrency := n; waiting := []; executing := [] |}.

Definition init (b : Backend) : AsyncCart :=
  {| _status := IDLE; _cart := None; _previousCartRevisionId := None;
     _queue := new_PQueue 1; backend := b; invocations := 0; trace := [] |}.

(** The getters (lines 68-74). *)
Definition status (s : AsyncCart) : CartStatus := _status s.
Definition cart (s : AsyncCart) : option CT := _cart s.

(** The handler registered on the queue's "idle" (lines 57-65). *)
Definition on_idle (s : AsyncCart) : AsyncCart :=
  let s := dispatchEvent (CartEvent "idle" (_cart s)) s in
  match _cart s with
  | Some c =>
      if differs (queries_cartRevisionId _config c) (_previousCartRevisionId s)
      then dispatchEvent (CartEvent "change" (_cart s)) s
      else s
  | None => s
  end.

(** ** Provider operations *)

Definition perform (r : request) (b : Backend) : settlement * Backend :=
  match r with
  | Fetch id => operations_fetch _config id b
  | Create input => operations_create _config input b
  | UpdateBuyer cart input => operations_updateBuyer _config cart input b
  | UpdateDiscountCodes cart input => operations_updateDiscountCodes _config cart input b
  | UpdateAttributes cart input => operations_updateAttributes _config cart input b
  | AddLineItems cart input => operations_addLineItems _config cart input b
  | UpdateLineItems cart input => operations_updateLineItems _config cart input b
  | RemoveLineItems cart input => operations_removeLineItems _config cart input b
  end.

(** The provider operation a mutation method ends with
    (lines 118, 126, 134, 142, 150, 158). *)
Definition mutation_request (m : mutation) (cart : CT) : request :=
  match m with
  | Buyer input => UpdateBuyer cart input
  | DiscountCodes input => UpdateDiscountCodes cart input
  | Attributes input => UpdateAttributes cart input
  | LineItemsAdded input => AddLineItems cart input
  | LineItemsUpdated input => UpdateLineItems cart input
  | LineItemsRemoved input => RemoveLineItems cart input
  end.

(** [if (!cart) throw new Error(...)] (lines 117, 125, 133, 141, 149, 157). *)
Definition unable (m : mutation) : string :=
  match m with
  | Buyer _ => "Unable to update buyer"
  | DiscountCodes _ => "Unable to update discount codes"
  | Attributes _ => "Unable to update attributes"
  | LineItemsAdded _ => "Unable to add line items"
  | LineItemsUpdated _ => "Unable to update line items"
  | LineItemsRemoved _ => "Unable to remove line items"
  end.

Definition ensure (m : mutation) (cart : option CT) : thrown + CT :=
  match cart with
  | None => inl (Error (unable m))
  | Some c => inr c
  end.

(** ** The serializer *)

Definition has_room (q : PQueue) : bool :=
  length (executing q) <? concurrency q.

Definition set_waiting (l : list invocation) (q : PQueue) : PQueue :=
  {| concurrency := concurrency q; waiting := l; executing := executing q |}.

Definition set_executing (l : list (invocation * suspended)) (q : PQueue) : PQueue :=
  {| concurrency := concurrency q; waiting := waiting q; executing := l |}.

(** A started closure reaches an [await]. *)
Definition suspend (inv : invocation) (p : suspended) (s : AsyncCart) : AsyncCart :=
  set_queue (set_executing (executing (_queue s) ++ [(inv, p)]) (_queue s)) s.

(** A closure calls a provider operation and is suspended at its promise. *)
Definition call_provider (inv : invocation) (r : request) (s : AsyncCart) : AsyncCart :=
  let s := observe (Call r) s in
  let '(o, b) := perform r (backend s) in
  suspend inv (AtProvider o) (set_backend b s).

(** [this._queue.add(task)]: the task runs at once, up to its first
    [await], when nothing waits before it and there is room; it waits
    its turn otherwise.  [body] is what the task does up to that
    [await]. *)
Definition queue_add (body : invocation -> AsyncCart -> AsyncCart)
    (inv : invocation) (s : AsyncCart) : AsyncCart :=
  let s := observe (Submit (inv_id inv)) s in
  match waiting (_queue s) with
  | [] =>
      if has_room (_queue s)
      then body inv (observe (Start (inv_id inv)) s)
      else set_queue (set_waiting [inv] (_queue s)) s
  | l => set_queue (set_waiting (l ++ [inv]) (_queue s)) s
  end.

(** ** [runCartOperation], up to [await queuePromise] (lines 76-87) *)

(** The invocation made in state [s]: its locals are read from the
    snapshot of that moment (lines 77-78). *)
Definition invocation_of (op : operation) (s : AsyncCart) : invocation :=
  {| inv_id := invocations s; inv_operation := op;
     inv_result := _cart s;
     inv_currentRevisionId :=
       match _cart s with
       | Some c => Some (queries_cartRevisionId _config c)
       | None => None
       end |}.

Definition runCartOperation_with (body : invocation -> AsyncCart -> AsyncCart)
    (op : operation) (s : AsyncCart) : AsyncCart * nat :=
  let inv := invocation_of op s in
  let s := count_invocation s in
  let s := set_status UPDATING s in
  let s := dispatchEvent (CartStatusChangeEvent (_status s)) s in
  (queue_add body inv s, inv_id inv).

(** [create] (lines 108-112). *)
Definition create_body (input : CartCreateInput) (inv : invocation) (s : AsyncCart) : AsyncCart :=
  call_provider inv (Create input) s.

Definition create_invocation (input : CartCreateInput) (s : AsyncCart) : AsyncCart * nat :=
  runCartOperation_with (create_body input) (CreateWith input) s.

(** What each closure does when the queue starts it, up to its first
    [await].  A mutation closure reads [this._cart]: with a snapshot there
    it goes on to the provider operation (the guard of line 117 passes);
    without one it calls [this.create({})] and is suspended at that
    promise. *)
Definition body (op : operation) (inv : invocation) (s : AsyncCart) : AsyncCart :=
  match op with
  | FetchById id => call_provider inv (Fetch id) s
  | CreateWith input => create_body input inv s
  | EnsureThen m =>
      match _cart s with
      | Some cart => call_provider inv (mutation_request m cart) s
      | None =>
          fst (create_invocation no_input
                 (suspend inv (AtCreate m (invocations s)) s))
      end
  end.

Definition runCartOperation (op : operation) (s : AsyncCart) : AsyncCart * nat :=
  runCartOperation_with (body op) op s.

(** When a task has settled, the queue starts the task that waited
    longest, if there is room for it; with nothing waiting and nothing
    executing it reports "idle". *)
Definition queue_next (s : AsyncCart) : AsyncCart :=
  match waiting (_queue s) with
  | [] =>
      match executing (_queue s) with
      | [] => on_idle s
      | _ => s
      end
  | inv :: l =>
      if has_room (_queue s)
      then body (inv_operation inv) inv
             (observe (Start (inv_id inv))
                (set_queue (set_waiting l (_queue s)) s))
      else s
  end.

(** ** [runCartOperation], from [await queuePromise] on (lines 87-99) *)

Definition finally (id : nat) (result : option CT) (s : AsyncCart) : AsyncCart * option CT :=
  let s := set_status READY s in
  let s := dispatchEvent (CartStatusChangeEvent (_status s)) s in
  (observe (Return id result) s, result).

Definition runCartOperation_resumed (inv : invocation) (o : settlement)
    (s : AsyncCart) : AsyncCart * option CT :=
  match o with
  | Resolves result =>
      let s := set_cart (Some result) s in
      let s :=
        if differs (queries_cartRevisionId _config result) (inv_currentRevisionId inv)
        then set_previousCartRevisionId (inv_currentRevisionId inv) s
        else s in
      finally (inv_id inv) (Some result) s
  | Rejects err =>
      let s := onError err s in
      finally (inv_id inv) (inv_result inv) s
  end.

(** ** Settlement *)

(** The executing task of invocation [id] that is suspended at a provider
    promise, and the other executing tasks. *)
Fixpoint take_at_provider (id : nat) (l : list (invocation * suspended))
    : option (invocation * settlement * list (invocation * suspended)) :=
  match l with
  | [] => None
  | (inv, AtProvider o) :: l' =>
      if inv_id inv =? id then Some (inv, o, l')
      else
        match take_at_provider id l' with
        | Some (i, o', r) => Some (i, o', (inv, AtProvider o) :: r)
        | None => None
        end
  | e :: l' =>
      match take_at_provider id l' with
      | Some (i, o', r) => Some (i, o', e :: r)
      | None => None
      end
  end.

(** The executing task that awaits invocation [inner]. *)
Fixpoint take_at_create (inner : nat) (l : list (invocation * suspended))
    : option (invocation * mutation * list (invocation * suspended)) :=
  match l with
  | [] => None
  | (inv, AtCreate m i) :: l' =>
      if i =? inner then Some (inv, m, l')
      else
        match take_at_create inner l' with
        | Some (i', m', r) => Some (i', m', (inv, AtCreate m i) :: r)
        | None => None
        end
  | e :: l' =>
      match take_at_create inner l' with
      | Some (i', m', r) => Some (i', m', e :: r)
      | None => None
      end
  end.

(** The task of [inv] has settled as [o], the other executing tasks being
    [others].  In the order of the program: the queue moves on first, in
    the turn in which it settles [queuePromise] (it starts the next task,
    whose closure runs up to its first [await], or it reports "idle",
    whose handler runs at once); the invocation that awaits the task goes
    on after that, behind [await queuePromise] (line 87): it updates the
    snapshot and the stored revision or reports the error, and sets the
    status back.  So the closure that is started and the idle handler
    read the snapshot and the stored revision as they were before the
    task settled. *)
Definition task_settled (inv : invocation) (o : settlement)
    (others : list (invocation * suspended)) (s : AsyncCart) : AsyncCart * option CT :=
  let s := set_queue (set_executing others (_queue s)) s in
  let s := observe (Finish (inv_id inv) o) s in
  let s := queue_next s in
  runCartOperation_resumed inv o s.

(** Invocation [id] has returned [v]: a mutation closure suspended at
    [await this.create({})] for it goes on with [cart = v]
    (lines 116-118 and siblings). *)
Definition wake (id : nat) (v : option CT) (s : AsyncCart) : AsyncCart :=
  match take_at_create id (executing (_queue s)) with
  | Some (outer, m, others) =>
      match ensure m v with
      | inr cart =>
          call_provider outer (mutation_request m cart)
            (set_queue (set_executing others (_queue s)) s)
      | inl err => fst (task_settled outer (Rejects err) others s)
      end
  | None => s
  end.

(** The provider promise of the task of invocation [id] settles. *)
Definition settle (id : nat) (s : AsyncCart) : AsyncCart :=
  match take_at_provider id (executing (_queue s)) with
  | Some (inv, o, others) =>
      let '(s, v) := task_settled inv o others s in
      wake id v s
  | None => s
  end.

(** The state in which the only executing task, that of [inv], has
    settled as [o] and has left the queue, before the queue moves on. *)
Definition finished (inv : invocation) (o : settlement) (s : AsyncCart) : AsyncCart :=
  observe (Finish (inv_id inv) o) (set_queue (set_executing [] (_queue s)) s).

(** The state in which the invocation [inv] has gone on from
    [await queuePromise] and has returned. *)
Definition resumed (inv : invocation) (o : settlement) (s : AsyncCart) : AsyncCart :=
  fst (runCartOperation_resumed inv o s).

(** The provider operation a closure calls as soon as it is started, if it
    calls one then: a mutation closure does when there is a snapshot. *)
Definition first_request (op : operation) (cart : option CT) : option request :=
  match op with
  | FetchById id => Some (Fetch id)
  | CreateWith input => Some (Create input)
  | EnsureThen m =>
      match cart with
      | Some c => Some (mutation_request m c)
      | None => None
      end
  end.

(** ** The public methods (lines 102-160) *)

(** What the promise returned by a public method is fulfilled with:
    [undefined], or whatever invocation [id] of [runCartOperation]
    returns. *)
Inductive returned : Type :=
  | Undefined
  | ResultOf (id : nat).

Definition fetch (id : string) (s : AsyncCart) : AsyncCart * returned :=
  let '(s, _) := runCartOperation (FetchById id) s in (s, Undefined).

Definition create (input : CartCreateInput) (s : AsyncCart) : AsyncCart * returned :=
  let '(s, id) := create_invocation input s in (s, ResultOf id).

Definition mutate (m : mutation) (s : AsyncCart) : AsyncCart * returned :=
  let '(s, id) := runCartOperation (EnsureThen m) s in (s, ResultOf id).

Definition updateBuyer (input : BT) := mutate (Buyer input).
Definition updateDiscountCodes (input : list string) := mutate (DiscountCodes input).
Definition updateAttributes (input : gmap string string) := mutate (Attributes input).
Definition addLineItems (input : list LT) := mutate (LineItemsAdded input).
Definition updateLineItems (input : list LT) := mutate (LineItemsUpdated input).
Definition removeLineItems (input : list string) := mutate (LineItemsRemoved input).

(** ** Runs *)

(** What the outside world does: a caller invokes a public method, or the
    provider promise of a task settles.  ([runCartOperation] is public
    too; the closures it is given here are those the class builds.) *)
Inductive stimulus : Type :=
  | Invoke (op : operation)
  | Settle (id : nat).

Definition invoke (op : operation) (s : AsyncCart) : AsyncCart * returned :=
  match op with
  | FetchById id => fetch id s
  | CreateWith input => create input s
  | EnsureThen m => mutate m s
  end.

Definition step (s : AsyncCart) (x : stimulus) : AsyncCart :=
  match x with
  | Invoke op => fst (invoke op s)
  | Settle id => settle id s
  end.

Definition run (s : AsyncCart) (l : list stimulus) : AsyncCart :=
  fold_left step l s.

End Coordinator.

Arguments CartCreateInput : clear implicits.
Arguments thrown : clear implicits.
Arguments settlement : clear implicits.
Arguments request : clear implicits.
Arguments ProviderConfig : clear implicits.
Arguments Event : clear implicits.
Arguments mutation : clear implicits.
Arguments operation : clear implicits.
Arguments invocation : clear implicits.
Arguments suspended : clear implicits.
Arguments PQueue : clear implicits.
Arguments observation : clear implicits.
Arguments AsyncCart : clear implicits.
Arguments stimulus : clear implicits.
Arguments has_room {CT BT LT Rejection} q : simpl never.

(** * A small shop, to run the class on

    Carts carry an identifier, a revision identifier and the buyer's name.
    The backend keeps no state.  Fetching and creating give revision
    ["r0"]; creating for the buyer ["nobody"] is rejected; changing the
    buyer keeps the revision (the backend does not count it as a change);
    changing line items gives revision ["r1"]; removing them gives ["r0"]
    back; discount codes are rejected. *)
Module Shop.

Record cart : Set := { id : string; revision : string; owner : string }.

Definition with_revision (r : string) (c : cart) : cart :=
  {| id := id c; revision := r; owner := owner c |}.

Definition ok (c : cart) (b : unit) : settlement cart string * unit :=
  (Resolves c, b).

Definition ko (why : string) (b : unit) : settlement cart string * unit :=
  (Rejects (Rejected why), b).

Definition config : ProviderConfig cart string string string unit :=
  {| queries_cartId := id;
     queries_cartRevisionId := revision;
     operations_fetch := fun i => ok {| id := i; revision := "r0"; owner := "" |};
     operations_create := fun input =>
       match buyer input with
       | Some "nobody" => ko "no such buyer"
       | Some b => ok {| id := "new"; revision := "r0"; owner := b |}
       | None => ok {| id := "new"; revision := "r0"; owner := "" |}
       end;
     operations_updateBuyer := fun c b =>
       ok {| id := id c; revision := revision c; owner := b |};
     operations_updateDiscountCodes := fun _ _ => ko "no discounts";
     operations_updateAttributes := fun c _ => ok c;
     operations_addLineItems := fun c _ => ok (with_revision "r1" c);
     operations_updateLineItems := fun c _ => ok (with_revision "r1" c);
     operations_removeLineItems := fun c _ => ok (with_revision "r0" c) |}.

(** The same shop while it is closed: nothing can be fetched or
    created. *)
Definition closed : ProviderConfig cart string string string unit :=
  {| queries_cartId := id;
     queries_cartRevisionId := revision;
     operations_fetch := fun _ => ko "closed";
     operations_create := fun _ => ko "closed";
     operations_updateBuyer := operations_updateBuyer config;
     operations_updateDiscountCodes := operations_updateDiscountCodes config;
     operations_updateAttributes := operations_updateAttributes config;
     operations_addLineItems := operations_addLineItems config;
     operations_updateLineItems := operations_updateLineItems config;
     operations_removeLineItems := operations_removeLineItems config |}.

Definition fresh : AsyncCart cart string string string unit := init tt.

Definition for_buyer (b : string) : CartCreateInput string string :=
  {| buyer := Some b; discountCodes := None; attributes := None; lineItems := None |}.

End Shop.

(** * Reading traces *)

Section Traces.

Context {CT BT LT Rejection Backend : Type}.

#[local] Abbreviation observation := (observation CT BT LT Rejection).
#[local] Abbreviation AsyncCart := (AsyncCart CT BT LT Rejection Backend).

(** The errors handed to [onError], the provider operations called, the
    statuses announced and the values returned by [runCartOperation], each
    in order. *)
Definition errors_of (t : list observation) : list (thrown Rejection) :=
  omap (fun o => match o with OnError e => Some e | _ => None end) t.

Definition calls_of (t : list observation) : list (request CT BT LT) :=
  omap (fun o => match o with Call r => Some r | _ => None end) t.

Definition statuses_of (t : list observation) : list CartStatus :=
  omap (fun o => match o with
                 | Dispatch (CartStatusChangeEvent st) => Some st
                 | _ => None
                 end) t.

Definition returns_of (t : list observation) : list (nat * option CT) :=
  omap (fun o => match o with Return id v => Some (id, v) | _ => None end) t.

(** The tasks submitted to the queue, started by it and finished, each in
    order. *)
Definition submits_of (t : list observation) : list nat :=
  omap (fun o => match o with Submit id => Some id | _ => None end) t.

Definition starts_of (t : list observation) : list nat :=
  omap (fun o => match o with Start id => Some id | _ => None end) t.

Definition finishes_of (t : list observation) : list nat :=
  omap (fun o => match o with Finish id _ => Some id | _ => None end) t.

(** A reading of a trace as a schedule: how many tasks were submitted, how
    many were started, and which one is executing. *)
Record schedule : Set := {
  submitted : nat;
  started : nat;
  busy : option nat
}.

(** One more observation is in order when
    - a submitted task is the next invocation, in the order of
      invocations;
    - a started task is the submitted task that has waited longest, and
      no task is executing;
    - a provider operation is called by the executing task;
    - a finished task is the executing task.
    Anything else leaves the schedule as it is. *)
Definition in_order (sc : option schedule) (o : observation) : option schedule :=
  match sc with
  | None => None
  | Some sc =>
      match o with
      | Submit id =>
          if id =? submitted sc
          then Some {| submitted := S (submitted sc); started := started sc;
                       busy := busy sc |}
          else None
      | Start id =>
          match busy sc with
          | None =>
              if (id =? started sc) && (id <? submitted sc)
              then Some {| submitted := submitted sc; started := S (started sc);
                           busy := Some id |}
              else None
          | Some _ => None
          end
      | Call _ =>
          match busy sc with
          | Some _ => Some sc
          | None => None
          end
      | Finish id _ =>
          match busy sc with
          | Some running =>
              if id =? running
              then Some {| submitted := submitted sc; started := started sc;
                           busy := None |}
              else None
          | None => None
          end
      | _ => Some sc
      end
  end.

(** The schedule a trace amounts to, if every observation of it was in
    order. *)
Definition serial (t : list observation) : option schedule :=
  fold_left in_order t (Some {| submitted := 0; started := 0; busy := None |}).

(** The invocations that have not returned: those executing, then those
    waiting. *)
Definition pending (s : AsyncCart) : list (invocation CT BT LT) :=
  map fst (executing (_queue s)) ++ waiting (_queue s).

(** What holds of every state the class can be in, between two
    stimuli: the queue admits one task at a time, the trace is in order,
    the waiting tasks are the submitted ones that were not started, in the
    order of submission, and a task waits only while another executes. *)
Definition consistent (s : AsyncCart) : Prop :=
  concurrency (_queue s) = 1 /\
  exists k b,
    serial (trace s) = Some {| submitted := invocations s; started := k; busy := b |} /\
    k <= invocations s /\
    map inv_id (waiting (_queue s)) = seq k (invocations s - k) /\
    match executing (_queue s) with
    | [] => b = None /\ k = invocations s
    | [(inv, _)] => b = Some (inv_id inv) /\ k = S (inv_id inv)
    | _ => False
    end.

(** The state in which the queue has just started the closure of [inv]. *)
Definition starting (inv : invocation CT BT LT) (s : AsyncCart) : Prop :=
  concurrency (_queue s) = 1 /\
  executing (_queue s) = [] /\
  serial (trace s) =
    Some {| submitted := invocations s; started := S (inv_id inv);
            busy := Some (inv_id inv) |} /\
  S (inv_id inv) <= invocations s /\
  map inv_id (waiting (_queue s)) =
    seq (S (inv_id inv)) (invocations s - S (inv_id inv)).

(** The state in which the executing task has just left the queue. *)
Definition released (s : AsyncCart) : Prop :=
  concurrency (_queue s) = 1 /\
  executing (_queue s) = [] /\
  exists k,
    serial (trace s) = Some {| submitted := invocations s; started := k; busy := None |} /\
    k <= invocations s /\
    map inv_id (waiting (_queue s)) = seq k (invocations s - k).

(** [s'] comes after [s] without a change of the snapshot or of the
    stored revision, without an error reported and without an invocation
    returning. *)
Definition quiet (s s' : AsyncCart) : Prop :=
  _cart s' = _cart s /\
  _previousCartRevisionId s' = _previousCartRevisionId s /\
  invocations s <= invocations s' /\
  exists d, trace s' = trace s ++ d /\ errors_of d = [] /\ returns_of d = [].

End Traces.

Arguments serial {CT BT LT Rejection} t : simpl never.

(** * What each stimulus adds to the trace *)

#[global] Instance CartStatus_eq_dec : EqDecision CartStatus.
Proof. solve_decision. Defined.

Section Outputs.

Context {CT BT LT Rejection Backend : Type}.
Variable _config : ProviderConfig CT BT LT Rejection Backend.

#[local] Abbreviation observation := (observation CT BT LT Rejection).
#[local] Abbreviation AsyncCart := (AsyncCart CT BT LT Rejection Backend).

(** What the idle handler dispatches (lines 58-64), for a snapshot and a
    stored previous revision. *)
Definition idle_events (snapshot : option CT) (previous : option string)
    : list observation :=
  Dispatch (CartEvent "idle" snapshot) ::
  match snapshot with
  | Some c =>
      if differs (queries_cartRevisionId _config c) previous
      then [Dispatch (CartEvent "change" (Some c))]
      else []
  | None => []
  end.

(** What is seen when the queue starts the task of [inv], the snapshot
    being [snapshot] and [n] invocations having been made: the provider
    operation it calls, or the invocation of [create] it makes. *)
Definition start_events (inv : invocation CT BT LT) (snapshot : option CT) (n : nat)
    : list observation :=
  Start (inv_id inv) ::
  match first_request (inv_operation inv) snapshot with
  | Some r => [Call r]
  | None => [Dispatch (CartStatusChangeEvent UPDATING); Submit n]
  end.

(** What is seen when a public method is invoked. *)
Definition invoke_events (op : operation BT LT) (s : AsyncCart) : list observation :=
  Dispatch (CartStatusChangeEvent UPDATING) :: Submit (invocations s) ::
  match executing (_queue s) with
  | [] => start_events (invocation_of _config op s) (_cart s) (S (invocations s))
  | _ => []
  end.

(** The snapshot and the stored previous revision once the invocation
    [inv] has gone on after its task settled as [o] (lines 88-94). *)
Definition snapshot_after (inv : invocation CT BT LT) (o : settlement CT Rejection)
    (s : AsyncCart) : option CT :=
  match o with
  | Resolves c => Some c
  | Rejects _ => _cart s
  end.

Definition previous_after (inv : invocation CT BT LT) (o : settlement CT Rejection)
    (s : AsyncCart) : option string :=
  match o with
  | Resolves c =>
      if differs (queries_cartRevisionId _config c) (inv_currentRevisionId inv)
      then inv_currentRevisionId inv
      else _previousCartRevisionId s
  | Rejects _ => _previousCartRevisionId s
  end.

(** What is seen when the queue moves on, the executing task having
    settled: the next task is started, or the idle handler runs. *)
Definition next_events (s : AsyncCart) : list observation :=
  match waiting (_queue s) with
  | [] => idle_events (_cart s) (_previousCartRevisionId s)
  | next :: _ => start_events next (_cart s) (invocations s)
  end.

(** What is seen when [runCartOperation] goes on from [await queuePromise]
    (lines 87-99). *)
Definition resumed_events (inv : invocation CT BT LT) (o : settlement CT Rejection)
    : list observation :=
  match o with
  | Resolves c =>
      [Dispatch (CartStatusChangeEvent READY); Return (inv_id inv) (Some c)]
  | Rejects e =>
      [OnError e; Dispatch (CartStatusChangeEvent READY);
       Return (inv_id inv) (inv_result inv)]
  end.

(** What is seen when the provider promise of task [id] settles. *)
Definition settle_events (id : nat) (s : AsyncCart) : list observation :=
  match executing (_queue s) with
  | [(inv, AtProvider o)] =>
      if inv_id inv =? id
      then Finish (inv_id inv) o :: next_events s ++ resumed_events inv o
      else []
  | _ => []
  end.

Definition step_events (s : AsyncCart) (x : stimulus BT LT) : list observation :=
  match x with
  | Invoke op => invoke_events op s
  | Settle id => settle_events id s
  end.

(** ** What can be read off a trace *)

(** [P x t1] holds wherever an observation [x] stands in the trace, [t1]
    being what came before it. *)
Definition wherever (P : observation -> list observation -> Prop)
    (t : list observation) : Prop :=
  forall t1 x t2, t = t1 ++ x :: t2 -> P x t1.

(** The same of the observations [d] that come after [t]. *)
Fixpoint and_then (P : observation -> list observation -> Prop)
    (t d : list observation) : Prop :=
  match d with
  | [] => True
  | x :: d' => P x t /\ and_then P (t ++ [x]) d'
  end.

(** Announcements of [UPDATING] and submissions to the queue: what a
    step adds to the trace while the executing task stays where it is. *)
Definition announcement (o : observation) : Prop :=
  match o with
  | Dispatch (CartStatusChangeEvent UPDATING) | Submit _ => True
  | _ => False
  end.

(** The errors the tasks were rejected with, and the carts they resolved
    with, each in order. *)
Definition rejections_of (t : list observation) : list (thrown Rejection) :=
  omap (fun o => match o with Finish _ (Rejects e) => Some e | _ => None end) t.

Definition resolved_of (t : list observation) : list CT :=
  omap (fun o => match o with Finish _ (Resolves c) => Some c | _ => None end) t.

(** How many times a status was announced. *)
Definition announced (st : CartStatus) (t : list observation) : nat :=
  length (filter (fun st' => st' = st) (statuses_of t)).

(** ** Provider promises *)

(** The number of provider promises that have not settled. *)
Fixpoint at_provider (l : list (invocation CT BT LT * suspended CT BT LT Rejection)) : nat :=
  match l with
  | [] => 0
  | (_, AtProvider _) :: l' => S (at_provider l')
  | (_, AtCreate _ _) :: l' => at_provider l'
  end.

Definition outstanding (s : AsyncCart) : nat := at_provider (executing (_queue s)).

(** ** Operations awaited one after the other *)

(** The operations whose outcome a caller can await: [create] and the
    mutation methods return the promise of [runCartOperation]
    (lines 109, 115, 123, 131, 139, 147, 155).  [fetch] does not
    (lines 102-106): its promise is fulfilled while its task is still
    executing, and it is not among them. *)
Inductive awaited : Type :=
  | Created (input : CartCreateInput BT LT)
  | Mutated (m : mutation BT LT).

Definition operation_of (a : awaited) : operation BT LT :=
  match a with
  | Created input => CreateWith input
  | Mutated m => EnsureThen m
  end.

(** The stimuli of a caller who awaits each of these operations before
    invoking the next, [n] invocations having been made before: the
    promise of invocation [n] is fulfilled when its task has settled. *)
Fixpoint one_after_the_other (ops : list awaited) (n : nat) : list (stimulus BT LT) :=
  match ops with
  | [] => []
  | a :: ops' =>
      Invoke (operation_of a) :: Settle n :: one_after_the_other ops' (S n)
  end.

(** What calling the provider directly would give: each operation is
    applied to the cart the previous ones left, a rejected one leaves the
    cart as it was, and a mutation needs a cart.  The result is the
    requests made, the values obtained, the cart left and the backend. *)
Fixpoint directly (ops : list (operation BT LT)) (snapshot : option CT) (b : Backend)
    : option (list (request CT BT LT) * list (option CT) * option CT * Backend) :=
  match ops with
  | [] => Some ([], [], snapshot, b)
  | op :: ops' =>
      match first_request op snapshot with
      | None => None
      | Some r =>
          let '(o, b') := perform _config r b in
          let snapshot' :=
            match o with
            | Resolves c => Some c
            | Rejects _ => snapshot
            end in
          match directly ops' snapshot' b' with
          | Some (rs, vs, c, bb) => Some (r :: rs, snapshot' :: vs, c, bb)
          | None => None
          end
      end
  end.

End Outputs.

Arguments awaited : clear implicits.

(** * Properties *)

Section Properties.

Context {CT BT LT Rejection Backend : Type}.
Variable _config : ProviderConfig CT BT LT Rejection Backend.

#[local] Abbreviation observation := (observation CT BT LT Rejection).
#[local] Abbreviation AsyncCart := (AsyncCart CT BT LT Rejection Backend).
#[local] Abbreviation invocation := (invocation CT BT LT).
#[local] Abbreviation operation := (operation BT LT).
#[local] Abbreviation mutation := (mutation BT LT).
#[local] Abbreviation request := (request CT BT LT).
#[local] Abbreviation settlement := (settlement CT Rejection).
#[local] Abbreviation thrown := (thrown Rejection).
#[local] Abbreviation stimulus := (stimulus BT LT).

(** ** Schedules *)

Lemma serial_snoc (t : list observation) (o : observation) :
  serial (t ++ [o]) = in_order (serial t) o.
Proof. unfold serial. rewrite fold_left_app. reflexivity. Qed.

Lemma seq_snoc_from (k n : nat) :
  k <= n -> seq k (n - k) ++ [n] = seq k (S n - k).
Proof.
  intros H. replace (S n - k) with ((n - k) + 1) by lia.
  rewrite seq_app. simpl. do 2 f_equal. lia.
Qed.

Lemma in_order_start (n k : nat) :
  k < n ->
  in_order (CT:=CT) (BT:=BT) (LT:=LT) (Rejection:=Rejection)
    (Some {| submitted := n; started := k; busy := None |}) (Start k) =
  Some {| submitted := n; started := S k; busy := Some k |}.
Proof.
  intros H. unfold in_order. cbn [busy started submitted].
  rewrite Nat.eqb_refl.
  replace (k <? n) with true by (symmetry; apply Nat.ltb_lt; exact H).
  reflexivity.
Qed.

(** Events, reported errors and returns say nothing about the schedule. *)
Lemma in_order_other (sc : option schedule) (o : observation) :
  match o with
  | Dispatch _ | OnError _ | Return _ _ => True
  | _ => False
  end ->
  in_order sc o = sc.
Proof. destruct sc, o; done. Qed.

Lemma serial_others (t d : list observation) :
  Forall (fun o => match o with
                   | Dispatch _ | OnError _ | Return _ _ => True
                   | _ => False
                   end) d ->
  serial (t ++ d) = serial t.
Proof.
  intros H. unfold serial. rewrite fold_left_app.
  generalize (fold_left in_order t
    (Some {| submitted := 0; started := 0; busy := None |})).
  induction H as [|o d Ho _ IH]; intros sc; [reflexivity|].
  cbn [fold_left]. rewrite in_order_other by exact Ho. apply IH.
Qed.

(** ** The two ways of [queue_add] *)

Lemma queue_add_busy (body : invocation -> AsyncCart -> AsyncCart) inv (s : AsyncCart) :
  has_room (_queue s) = false ->
  queue_add body inv s =
  set_queue (set_waiting (waiting (_queue s) ++ [inv]) (_queue s))
    (observe (Submit (inv_id inv)) s).
Proof.
  intros H. unfold queue_add. cbn.
  destruct (waiting (_queue s)); [rewrite H|]; reflexivity.
Qed.

Lemma queue_add_free (body : invocation -> AsyncCart -> AsyncCart) inv (s : AsyncCart) :
  waiting (_queue s) = [] ->
  has_room (_queue s) = true ->
  queue_add body inv s =
  body inv (observe (Start (inv_id inv)) (observe (Submit (inv_id inv)) s)).
Proof. intros Hw H. unfold queue_add. cbn. rewrite Hw, H. reflexivity. Qed.

Lemma has_room_one (s : AsyncCart) e :
  concurrency (_queue s) = 1 ->
  executing (_queue s) = [e] ->
  has_room (_queue s) = false.
Proof. intros Hc He. unfold has_room. rewrite Hc, He. reflexivity. Qed.

Lemma has_room_none (s : AsyncCart) :
  concurrency (_queue s) = 1 ->
  executing (_queue s) = [] ->
  has_room (_queue s) = true.
Proof. intros Hc He. unfold has_room. rewrite Hc, He. reflexivity. Qed.

(** ** Consistency *)

Lemma init_consistent (b : Backend) : consistent (init b : AsyncCart).
Proof.
  split; [reflexivity|]. exists 0, None. cbn. repeat split; done.
Qed.

Lemma suspend_consistent inv p (s : AsyncCart) :
  starting inv s -> consistent (suspend inv p s).
Proof.
  intros (Hc & He & Hs & Hle & Hw).
  split; [exact Hc|]. cbn.
  exists (S (inv_id inv)), (Some (inv_id inv)).
  rewrite Hs, He. cbn. repeat split; done.
Qed.

Lemma call_provider_consistent inv (r : request) (s : AsyncCart) :
  starting inv s -> consistent (call_provider _config inv r s).
Proof.
  intros (Hc & He & Hs & Hle & Hw).
  unfold call_provider. cbn.
  destruct (perform _config r (backend s)) as [o b'].
  split; [exact Hc|]. cbn.
  exists (S (inv_id inv)), (Some (inv_id inv)).
  rewrite serial_snoc, Hs, He. cbn. repeat split; done.
Qed.

(** An invocation made while a task executes waits its turn. *)
Lemma enqueue_consistent (body : invocation -> AsyncCart -> AsyncCart) (op : operation) (s : AsyncCart) :
  consistent s ->
  executing (_queue s) <> [] ->
  consistent (fst (runCartOperation_with _config body op s)).
Proof.
  intros (Hc & k & b & Hs & Hle & Hw & Hx) Hne.
  destruct (executing (_queue s)) as [|[inv0 p0] [|]] eqn:He; try done.
  destruct Hx as [-> ->].
  unfold runCartOperation_with. cbn.
  rewrite queue_add_busy by (apply (has_room_one _ (inv0, p0)); done).
  split; [exact Hc|]. cbn.
  exists (S (inv_id inv0)), (Some (inv_id inv0)).
  rewrite !serial_snoc, Hs, He. cbn. rewrite Nat.eqb_refl.
  rewrite map_app, Hw. cbn.
  rewrite seq_snoc_from by lia.
  repeat split; try done. lia.
Qed.

Lemma body_consistent (op : operation) inv (s : AsyncCart) :
  starting inv s -> consistent (body _config op inv s).
Proof.
  intros H. destruct op as [id|input|m]; unfold body, create_body.
  - apply call_provider_consistent; exact H.
  - apply call_provider_consistent; exact H.
  - destruct (_cart s) eqn:Hcart.
    + apply call_provider_consistent; exact H.
    + unfold create_invocation. apply enqueue_consistent.
      * apply suspend_consistent; exact H.
      * cbn. destruct (executing (_queue s)); done.
Qed.

Lemma starting_from_idle (op : operation) (s : AsyncCart) result rev :
  consistent s ->
  executing (_queue s) = [] ->
  let inv := {| inv_id := invocations s; inv_operation := op;
                inv_result := result; inv_currentRevisionId := rev |} in
  starting inv
    (observe (Start (invocations s))
       (observe (Submit (invocations s))
          (dispatchEvent (CartStatusChangeEvent UPDATING)
             (set_status UPDATING (count_invocation s))))).
Proof.
  intros (Hc & k & b & Hs & Hle & Hw & Hx) He inv.
  rewrite He in Hx. destruct Hx as [-> ->].
  repeat split; cbn; try done.
  - rewrite !serial_snoc, Hs. cbn [in_order submitted started busy].
    rewrite Nat.eqb_refl. apply in_order_start. lia.
  - rewrite Hw. rewrite !Nat.sub_diag. reflexivity.
Qed.

Lemma waiting_from_idle (s : AsyncCart) :
  consistent s -> executing (_queue s) = [] -> waiting (_queue s) = [].
Proof.
  intros (Hc & k & b & Hs & Hle & Hw & Hx) He.
  rewrite He in Hx. destruct Hx as [-> ->].
  rewrite Nat.sub_diag in Hw. cbn in Hw.
  destruct (waiting (_queue s)); done.
Qed.

Lemma runCartOperation_from_idle (op : operation) (s : AsyncCart) :
  consistent s ->
  executing (_queue s) = [] ->
  fst (runCartOperation _config op s) =
  let inv := {| inv_id := invocations s; inv_operation := op;
                inv_result := _cart s;
                inv_currentRevisionId :=
                  match _cart s with
                  | Some c => Some (queries_cartRevisionId _config c)
                  | None => None
                  end |} in
  body _config op inv
    (observe (Start (invocations s))
       (observe (Submit (invocations s))
          (dispatchEvent (CartStatusChangeEvent UPDATING)
             (set_status UPDATING (count_invocation s))))).
Proof.
  intros Hs He. unfold runCartOperation, runCartOperation_with. cbn.
  rewrite queue_add_free; cbn.
  - reflexivity.
  - apply waiting_from_idle; done.
  - apply has_room_none; [apply Hs| done].
Qed.

Lemma runCartOperation_consistent (op : operation) (s : AsyncCart) :
  consistent s -> consistent (fst (runCartOperation _config op s)).
Proof.
  intros Hs.
  destruct (executing (_queue s)) eqn:He.
  - rewrite runCartOperation_from_idle by done. cbn.
    apply body_consistent. apply starting_from_idle; done.
  - apply enqueue_consistent; [done|]. rewrite He. done.
Qed.

Lemma invoke_runCartOperation (op : operation) (s : AsyncCart) :
  fst (invoke _config op s) = fst (runCartOperation _config op s).
Proof.
  destruct op; cbn; unfold fetch, create, mutate.
  - destruct (runCartOperation _config (FetchById id) s); reflexivity.
  - unfold runCartOperation. cbn.
    destruct (create_invocation _config input s); reflexivity.
  - destruct (runCartOperation _config (EnsureThen m) s); reflexivity.
Qed.

(** ** The idle handler changes nothing but the trace *)

Lemma on_idle_trace (s : AsyncCart) :
  trace (on_idle _config s) =
  trace s ++ Dispatch (CartEvent "idle" (_cart s)) ::
    match _cart s with
    | Some c =>
        if differs (queries_cartRevisionId _config c) (_previousCartRevisionId s)
        then [Dispatch (CartEvent "change" (Some c))]
        else []
    | None => []
    end.
Proof.
  unfold on_idle. cbn. destruct (_cart s) as [c|]; cbn; [|reflexivity].
  destruct (differs _ _); cbn; [|reflexivity].
  rewrite <- app_assoc. reflexivity.
Qed.

Lemma on_idle_fields (s : AsyncCart) :
  _status (on_idle _config s) = _status s /\
  _cart (on_idle _config s) = _cart s /\
  _previousCartRevisionId (on_idle _config s) = _previousCartRevisionId s /\
  _queue (on_idle _config s) = _queue s /\
  backend (on_idle _config s) = backend s /\
  invocations (on_idle _config s) = invocations s.
Proof.
  destruct s as [st c p q b n t]. unfold on_idle. cbn.
  destruct c; cbn; [destruct (differs _ _)|]; done.
Qed.

(** ** What the queue does next *)

Lemma enqueue_form (body : invocation -> AsyncCart -> AsyncCart) (op : operation) (s : AsyncCart) :
  has_room (_queue s) = false ->
  fst (runCartOperation_with _config body op s) =
  set_queue
    (set_waiting
       (waiting (_queue s) ++
          [{| inv_id := invocations s; inv_operation := op;
              inv_result := _cart s;
              inv_currentRevisionId :=
                match _cart s with
                | Some c => Some (queries_cartRevisionId _config c)
                | None => None
                end |}])
       (_queue s))
    (observe (Submit (invocations s))
       (dispatchEvent (CartStatusChangeEvent UPDATING)
          (set_status UPDATING (count_invocation s)))).
Proof.
  intros H. unfold runCartOperation_with. cbn.
  rewrite queue_add_busy by exact H. reflexivity.
Qed.

Lemma call_provider_executing inv (r : request) (s : AsyncCart) :
  exists o,
    executing (_queue (call_provider _config inv r s)) =
    executing (_queue s) ++ [(inv, AtProvider o)].
Proof.
  unfold call_provider. cbn.
  destruct (perform _config r (backend s)) as [o b']. exists o. reflexivity.
Qed.

Lemma started_executing (op : operation) inv (s : AsyncCart) :
  concurrency (_queue s) = 1 ->
  executing (_queue s) = [] ->
  (exists o, executing (_queue (body _config op inv s)) = [(inv, AtProvider o)]) \/
  (exists m, executing (_queue (body _config op inv s)) =
             [(inv, AtCreate m (invocations s))]).
Proof.
  intros Hc He.
  destruct op as [id|input|m]; unfold body, create_body.
  - left. destruct (call_provider_executing inv (Fetch id) s) as [o Ho].
    exists o. rewrite Ho, He. reflexivity.
  - left. destruct (call_provider_executing inv (Create input) s) as [o Ho].
    exists o. rewrite Ho, He. reflexivity.
  - destruct (_cart s) as [c|].
    + left. destruct (call_provider_executing inv (mutation_request m c) s) as [o Ho].
      exists o. rewrite Ho, He. reflexivity.
    + right. exists m. unfold create_invocation.
      rewrite enqueue_form.
      * cbn. rewrite He. reflexivity.
      * apply (has_room_one _ (inv, AtCreate m (invocations s))); cbn; [done|].
        rewrite He. reflexivity.
Qed.

Lemma queue_next_consistent (s : AsyncCart) :
  released s -> consistent (queue_next _config s).
Proof.
  intros (Hc & He & k & Hs & Hle & Hw).
  unfold queue_next. rewrite He.
  destruct (waiting (_queue s)) as [|inv l] eqn:Hwait.
  - destruct (on_idle_fields s) as (_ & _ & _ & Hq & _ & Hn).
    split; [rewrite Hq; exact Hc|].
    exists k, None. rewrite Hq, Hn, He, Hwait.
    cbn in Hw.
    assert (k = invocations s) as ->.
    { destruct (invocations s - k) eqn:E; [lia|done]. }
    rewrite on_idle_trace.
    repeat split; try done.
    rewrite serial_others; [exact Hs|].
    destruct (_cart s) as [c|]; [destruct (differs _ _)|];
      repeat constructor.
  - rewrite has_room_none by done.
    cbn in Hw.
    destruct (invocations s - k) as [|d] eqn:E; [done|].
    cbn in Hw. injection Hw as Hid Hl.
    apply body_consistent.
    repeat split; cbn; try done.
    + rewrite serial_snoc, Hs, Hid. apply in_order_start. lia.
    + lia.
    + rewrite Hl, Hid. f_equal. lia.
Qed.

Lemma queue_next_no_waiter (id : nat) (s : AsyncCart) :
  concurrency (_queue s) = 1 ->
  executing (_queue s) = [] ->
  id < invocations s ->
  take_at_create id (executing (_queue (queue_next _config s))) = None.
Proof.
  intros Hc He Hid. unfold queue_next. rewrite He.
  destruct (waiting (_queue s)) as [|inv l] eqn:Hwait.
  - destruct (on_idle_fields s) as (_ & _ & _ & Hq & _).
    rewrite Hq, He. reflexivity.
  - rewrite has_room_none by done.
    destruct (started_executing (inv_operation inv) inv
                (observe (Start (inv_id inv)) (set_queue (set_waiting l (_queue s)) s)))
      as [[o Ho]|[m Hm]]; cbn; try done.
    + rewrite Ho. reflexivity.
    + rewrite Hm. cbn.
      replace (invocations s =? id) with false
        by (symmetry; apply Nat.eqb_neq; lia).
      reflexivity.
Qed.

(** ** Settlement in a consistent state *)

Lemma finished_released inv o p (s : AsyncCart) :
  consistent s ->
  executing (_queue s) = [(inv, p)] ->
  released (finished inv o s).
Proof.
  intros (Hc & k & b & Hs & Hle & Hw & Hx) He.
  rewrite He in Hx. destruct Hx as [-> ->].
  repeat split; cbn; try done.
  exists (S (inv_id inv)). repeat split; try done.
  rewrite serial_snoc, Hs. cbn. rewrite Nat.eqb_refl. reflexivity.
Qed.

Lemma resumed_fields inv o (s : AsyncCart) :
  _status (resumed _config inv o s) = READY /\
  _queue (resumed _config inv o s) = _queue s /\
  backend (resumed _config inv o s) = backend s /\
  invocations (resumed _config inv o s) = invocations s.
Proof. unfold resumed. destruct o; cbn; [destruct (differs _ _)|]; done. Qed.

Lemma resumed_trace inv o (s : AsyncCart) :
  trace (resumed _config inv o s) = trace s ++ resumed_events inv o.
Proof.
  unfold resumed. destruct o; cbn; [destruct (differs _ _)|]; cbn;
    rewrite <- ?app_assoc; reflexivity.
Qed.

Lemma resumed_snapshot inv o (s : AsyncCart) :
  _cart (resumed _config inv o s) = snapshot_after inv o s /\
  _previousCartRevisionId (resumed _config inv o s) = previous_after _config inv o s.
Proof. unfold resumed. destruct o; cbn; [destruct (differs _ _)|]; done. Qed.

Lemma resumed_consistent inv o (s : AsyncCart) :
  consistent s -> consistent (resumed _config inv o s).
Proof.
  intros (Hc & k & b & Hs & Hle & Hw & Hx).
  destruct (resumed_fields inv o s) as (_ & Hq & _ & Hn).
  split; [rewrite Hq; exact Hc|].
  exists k, b. rewrite Hq, Hn, resumed_trace.
  rewrite serial_others by (destruct o; repeat constructor).
  done.
Qed.

Lemma settle_running inv o (s : AsyncCart) :
  consistent s ->
  executing (_queue s) = [(inv, AtProvider o)] ->
  settle _config (inv_id inv) s =
  resumed _config inv o (queue_next _config (finished inv o s)).
Proof.
  intros Hs He. unfold settle. rewrite He. cbn [take_at_provider].
  rewrite Nat.eqb_refl. unfold task_settled. cbn zeta.
  fold (finished inv o s).
  destruct (runCartOperation_resumed _config inv o
              (queue_next _config (finished inv o s))) as [mid v] eqn:E.
  assert (resumed _config inv o (queue_next _config (finished inv o s)) = mid) as Hmid
    by (unfold resumed; rewrite E; reflexivity).
  unfold wake. rewrite <- Hmid.
  destruct (resumed_fields inv o (queue_next _config (finished inv o s)))
    as (_ & -> & _).
  rewrite queue_next_no_waiter; [reflexivity|apply Hs|reflexivity|].
  cbn. destruct Hs as (Hc & k & b & Hser & Hle & Hw & Hx).
  rewrite He in Hx. destruct Hx as [-> ->]. lia.
Qed.

Lemma settle_elsewhere (id : nat) (s : AsyncCart) :
  consistent s ->
  (forall inv o, executing (_queue s) = [(inv, AtProvider o)] -> inv_id inv <> id) ->
  settle _config id s = s.
Proof.
  intros (Hc & k & b & Hs & Hle & Hw & Hx) Hno. unfold settle.
  destruct (executing (_queue s)) as [|[inv [o|m i]] [|]]; try done.
  cbn. specialize (Hno inv o eq_refl).
  replace (inv_id inv =? id) with false by (symmetry; apply Nat.eqb_neq; done).
  reflexivity.
Qed.

(** A settlement changes nothing, or it is that of the only executing
    task: the queue moves on, then the invocation that awaited the task
    goes on. *)
Lemma settle_cases (id : nat) (s : AsyncCart) :
  consistent s ->
  settle _config id s = s \/
  exists inv o,
    executing (_queue s) = [(inv, AtProvider o)] /\
    inv_id inv = id /\
    settle _config id s =
    resumed _config inv o (queue_next _config (finished inv o s)).
Proof.
  intros Hs.
  destruct (executing (_queue s)) as [|[inv [o|m i]] [|]] eqn:He;
    try (left; apply settle_elsewhere; [exact Hs|rewrite He; done]).
  destruct (Nat.eq_dec (inv_id inv) id) as [Hid|Hne].
  - right. exists inv, o. rewrite <- Hid. repeat split.
    apply settle_running; done.
  - left. apply settle_elsewhere; [exact Hs|].
    rewrite He. intros ? ? [= <- _]. exact Hne.
Qed.

Lemma settle_consistent (id : nat) (s : AsyncCart) :
  consistent s -> consistent (settle _config id s).
Proof.
  intros Hs.
  destruct (settle_cases id s Hs) as [->|(inv & o & He & _ & ->)]; [exact Hs|].
  apply resumed_consistent, queue_next_consistent,
    (finished_released inv o (AtProvider o)); done.
Qed.

Lemma step_consistent (s : AsyncCart) (x : stimulus) :
  consistent s -> consistent (step _config s x).
Proof.
  intros Hs. destruct x as [op|id]; cbn [step].
  - rewrite invoke_runCartOperation. apply runCartOperation_consistent; exact Hs.
  - apply settle_consistent; exact Hs.
Qed.

Lemma run_snoc (s : AsyncCart) (l : list stimulus) (x : stimulus) :
  run _config s (l ++ [x]) = step _config (run _config s l) x.
Proof. unfold run. rewrite fold_left_app. reflexivity. Qed.

Lemma run_consistent (s : AsyncCart) (l : list stimulus) :
  consistent s -> consistent (run _config s l).
Proof.
  revert s. induction l as [|x l IH]; intros s Hs; [exact Hs|].
  cbn. apply IH. apply step_consistent; exact Hs.
Qed.

(** ** What starting a task leaves alone *)

Lemma quiet_refl (s : AsyncCart) : quiet s s.
Proof.
  repeat split; try done. exists []. rewrite app_nil_r. done.
Qed.

Lemma quiet_trans (s1 s2 s3 : AsyncCart) : quiet s1 s2 -> quiet s2 s3 -> quiet s1 s3.
Proof.
  intros (Hc1 & Hp1 & Hn1 & d1 & Ht1 & He1 & Hr1)
         (Hc2 & Hp2 & Hn2 & d2 & Ht2 & He2 & Hr2).
  repeat split; try congruence; try lia.
  exists (d1 ++ d2). rewrite Ht2, Ht1, app_assoc.
  unfold errors_of, returns_of in *. rewrite !omap_app, He1, He2, Hr1, Hr2. done.
Qed.

Lemma quiet_step (s s' : AsyncCart) (d : list observation) :
  _cart s' = _cart s ->
  _previousCartRevisionId s' = _previousCartRevisionId s ->
  invocations s <= invocations s' ->
  trace s' = trace s ++ d ->
  errors_of d = [] -> returns_of d = [] ->
  quiet s s'.
Proof. intros. repeat split; try done. exists d. done. Qed.

Lemma quiet_call_provider inv (r : request) (s : AsyncCart) :
  quiet s (call_provider _config inv r s).
Proof.
  unfold call_provider. cbn.
  destruct (perform _config r (backend s)) as [o b'].
  apply (quiet_step _ _ [Call r]); done.
Qed.

Lemma quiet_queue_add (body : invocation -> AsyncCart -> AsyncCart) inv (s : AsyncCart) :
  (forall s0, quiet s0 (body inv s0)) ->
  quiet s (queue_add body inv s).
Proof.
  intros Hb. unfold queue_add. cbn.
  destruct (waiting (_queue s)) as [|w0 w].
  - destruct (has_room (_queue s)).
    + eapply quiet_trans; [|apply Hb].
      apply (quiet_step _ _ [Submit (inv_id inv); Start (inv_id inv)]);
        cbn; rewrite <- ?app_assoc; done.
    + apply (quiet_step _ _ [Submit (inv_id inv)]); done.
  - apply (quiet_step _ _ [Submit (inv_id inv)]); done.
Qed.

Lemma quiet_runCartOperation_with (body : invocation -> AsyncCart -> AsyncCart)
    (op : operation) (s : AsyncCart) :
  (forall inv s0, quiet s0 (body inv s0)) ->
  quiet s (fst (runCartOperation_with _config body op s)).
Proof.
  intros Hb. unfold runCartOperation_with. cbn [fst].
  eapply quiet_trans; [|apply quiet_queue_add; apply Hb].
  apply (quiet_step _ _ [Dispatch (CartStatusChangeEvent UPDATING)]); cbn; try done.
  lia.
Qed.

Lemma quiet_body (op : operation) inv (s : AsyncCart) :
  quiet s (body _config op inv s).
Proof.
  destruct op as [id|input|m]; unfold body, create_body;
    try apply quiet_call_provider.
  destruct (_cart s) as [c|] eqn:Hc; [apply quiet_call_provider|].
  eapply quiet_trans;
    [|apply quiet_runCartOperation_with; intros; apply quiet_call_provider].
  apply (quiet_step _ _ []); cbn; rewrite ?app_nil_r; done.
Qed.

Lemma quiet_runCartOperation (op : operation) (s : AsyncCart) :
  quiet s (fst (runCartOperation _config op s)).
Proof. apply quiet_runCartOperation_with. intros. apply quiet_body. Qed.

Lemma quiet_on_idle (s : AsyncCart) : quiet s (on_idle _config s).
Proof.
  destruct (on_idle_fields s) as (_ & Hc & Hp & _ & _ & Hn).
  eapply quiet_step; [exact Hc|exact Hp|lia|apply on_idle_trace| |].
  - destruct (_cart s); [destruct (differs _ _)|]; done.
  - destruct (_cart s); [destruct (differs _ _)|]; done.
Qed.

Lemma quiet_queue_next (s : AsyncCart) : quiet s (queue_next _config s).
Proof.
  unfold queue_next.
  destruct (waiting (_queue s)) as [|inv l].
  - destruct (executing (_queue s)); [apply quiet_on_idle|apply quiet_refl].
  - destruct (has_room (_queue s)); [|apply quiet_refl].
    eapply quiet_trans; [|apply quiet_body].
    apply (quiet_step _ _ [Start (inv_id inv)]); done.
Qed.

(** ** Status after an invocation *)

Lemma call_provider_status inv (r : request) (s : AsyncCart) :
  _status (call_provider _config inv r s) = _status s.
Proof.
  unfold call_provider. cbn.
  destruct (perform _config r (backend s)) as [o b']. reflexivity.
Qed.

Lemma queue_add_status (body : invocation -> AsyncCart -> AsyncCart) inv (s : AsyncCart) :
  (forall s0, _status s0 = UPDATING -> _status (body inv s0) = UPDATING) ->
  _status s = UPDATING ->
  _status (queue_add body inv s) = UPDATING.
Proof.
  intros Hb Hs. unfold queue_add. cbn.
  destruct (waiting (_queue s)); [destruct (has_room (_queue s))|]; cbn; try done.
  apply Hb. exact Hs.
Qed.

Lemma runCartOperation_with_status (body : invocation -> AsyncCart -> AsyncCart)
    (op : operation) (s : AsyncCart) :
  (forall inv s0, _status s0 = UPDATING -> _status (body inv s0) = UPDATING) ->
  _status (fst (runCartOperation_with _config body op s)) = UPDATING.
Proof.
  intros Hb. unfold runCartOperation_with. cbn [fst].
  apply queue_add_status; [apply Hb|reflexivity].
Qed.

Lemma runCartOperation_status (op : operation) (s : AsyncCart) :
  _status (fst (runCartOperation _config op s)) = UPDATING.
Proof.
  apply runCartOperation_with_status. intros inv s0 Hs0.
  destruct op as [id|input|m]; unfold body, create_body;
    rewrite ?call_provider_status; try done.
  destruct (_cart s0); [rewrite call_provider_status; done|].
  apply runCartOperation_with_status. intros.
  unfold create_body. rewrite call_provider_status. done.
Qed.

Lemma runCartOperation_trace (op : operation) (s : AsyncCart) :
  exists tl,
    trace (fst (runCartOperation _config op s)) =
    trace s ++ Dispatch (CartStatusChangeEvent UPDATING) :: Submit (invocations s) :: tl.
Proof.
  unfold runCartOperation, runCartOperation_with, queue_add. cbn.
  match goal with |- context [body _config op ?i ?s0] =>
    destruct (quiet_body op i s0) as (_ & _ & _ & d & Hd & _) end.
  destruct (waiting (_queue s)); [destruct (has_room (_queue s))|].
  - rewrite Hd. cbn. exists (Start (invocations s) :: d).
    rewrite <- !app_assoc. reflexivity.
  - exists []. cbn. rewrite <- !app_assoc. reflexivity.
  - exists []. cbn. rewrite <- !app_assoc. reflexivity.
Qed.

(** [updateAttributes] is an invocation of [EnsureThen]; so are the other
    five mutation methods, by definition. *)
Lemma updateAttributes_invokes (s : AsyncCart) input :
  fst (updateAttributes _config input s) =
  step _config s (Invoke (EnsureThen (Attributes input))).
Proof. reflexivity. Qed.

Lemma reachable_consistent (b : Backend) (l : list stimulus) :
  consistent (run _config (init b) l).
Proof. apply run_consistent, init_consistent. Qed.

Lemma drained (s : AsyncCart) :
  waiting (_queue s) = [] ->
  executing (_queue s) = [] ->
  queue_next _config s = on_idle _config s.
Proof. intros Hw He. unfold queue_next. rewrite Hw, He. reflexivity. Qed.

(** ** An operation invoked while nothing executes *)

Lemma call_provider_form inv (r : request) (s : AsyncCart) o b' :
  perform _config r (backend s) = (o, b') ->
  call_provider _config inv r s =
  suspend inv (AtProvider o) (set_backend b' (observe (Call r) s)).
Proof. intros H. unfold call_provider. cbn. rewrite H. reflexivity. Qed.

Lemma body_first_request (op : operation) inv (s : AsyncCart) r :
  first_request op (_cart s) = Some r ->
  body _config op inv s = call_provider _config inv r s.
Proof.
  destruct op as [id|input|m]; cbn; try (intros [= <-]; reflexivity).
  destruct (_cart s); [intros [= <-]; reflexivity|done].
Qed.

Lemma invoke_from_idle (op : operation) (s : AsyncCart) r o b' :
  consistent s ->
  executing (_queue s) = [] ->
  first_request op (_cart s) = Some r ->
  perform _config r (backend s) = (o, b') ->
  let s1 := step _config s (Invoke op) in
  _status s1 = UPDATING /\
  _cart s1 = _cart s /\
  _previousCartRevisionId s1 = _previousCartRevisionId s /\
  invocations s1 = S (invocations s) /\
  waiting (_queue s1) = [] /\
  executing (_queue s1) = [(invocation_of _config op s, AtProvider o)] /\
  trace s1 =
  trace s ++
    [Dispatch (CartStatusChangeEvent UPDATING); Submit (invocations s);
     Start (invocations s); Call r].
Proof.
  intros Hs He Hr Hp s1. unfold s1. cbn [step].
  rewrite invoke_runCartOperation, runCartOperation_from_idle by done.
  cbn zeta. fold (invocation_of _config op s).
  rewrite (body_first_request _ _ _ r) by exact Hr.
  rewrite (call_provider_form _ _ _ o b') by exact Hp.
  cbn. rewrite He, (waiting_from_idle s) by done.
  rewrite <- !app_assoc. done.
Qed.

Lemma settle_from_idle (op : operation) (s : AsyncCart) r o b' :
  consistent s ->
  executing (_queue s) = [] ->
  first_request op (_cart s) = Some r ->
  perform _config r (backend s) = (o, b') ->
  let s1 := step _config s (Invoke op) in
  step _config s1 (Settle (invocations s)) =
  resumed _config (invocation_of _config op s) o
    (on_idle _config (finished (invocation_of _config op s) o s1)).
Proof.
  intros Hs He Hr Hp s1.
  destruct (invoke_from_idle op s r o b' Hs He Hr Hp)
    as (_ & _ & _ & _ & Hw & Hx & _). fold s1 in Hw, Hx.
  cbn [step].
  change (invocations s) with (inv_id (invocation_of _config op s)).
  rewrite (settle_running _ o) by (try apply step_consistent; done).
  rewrite drained; [reflexivity|exact Hw|reflexivity].
Qed.

(** ** Status at rest *)

Lemma runCartOperation_executing (op : operation) (s : AsyncCart) :
  consistent s -> executing (_queue (fst (runCartOperation _config op s))) <> [].
Proof.
  intros Hs. destruct (executing (_queue s)) as [|e x] eqn:He.
  - rewrite runCartOperation_from_idle by done. cbn zeta.
    match goal with |- context [body _config op ?i ?s0] =>
      destruct (started_executing op i s0) as [[o ->]|[m ->]]; try done end.
    apply Hs.
  - destruct Hs as (Hc & k & b & Hs & Hle & Hw & Hx).
    rewrite He in Hx. destruct e as [i p], x; [|done].
    unfold runCartOperation. rewrite enqueue_form.
    + cbn. rewrite He. done.
    + apply (has_room_one _ (i, p)); done.
Qed.

Lemma queue_next_executing (s : AsyncCart) :
  concurrency (_queue s) = 1 ->
  executing (_queue s) = [] ->
  waiting (_queue s) <> [] ->
  executing (_queue (queue_next _config s)) <> [].
Proof.
  intros Hc He Hw. unfold queue_next.
  destruct (waiting (_queue s)) as [|inv l]; [done|].
  rewrite has_room_none by done.
  match goal with |- context [body _config ?op ?i ?s0] =>
    destruct (started_executing op i s0) as [[o ->]|[m ->]]; done end.
Qed.

Lemma step_at_rest (s : AsyncCart) (x : stimulus) :
  consistent s ->
  (executing (_queue s) = [] -> _status s <> UPDATING) ->
  executing (_queue (step _config s x)) = [] ->
  _status (step _config s x) <> UPDATING.
Proof.
  intros Hs Hrest. destruct x as [op|id]; cbn [step].
  - rewrite invoke_runCartOperation. intros He.
    destruct (runCartOperation_executing op s Hs He).
  - destruct (settle_cases id s Hs) as [->|(inv & o & He & _ & ->)]; [exact Hrest|].
    destruct (resumed_fields inv o (queue_next _config (finished inv o s))) as (-> & _).
    done.
Qed.

Lemma status_at_rest (b : Backend) (l : list stimulus) :
  let s := run _config (init b) l in
  executing (_queue s) = [] -> _status s = IDLE \/ _status s = READY.
Proof.
  cbn zeta.
  assert (executing (_queue (run _config (init b) l)) = [] ->
          _status (run _config (init b) l) <> UPDATING) as H.
  { induction l as [|x l IH] using rev_ind; [done|].
    rewrite run_snoc. apply step_at_rest; [apply reachable_consistent|exact IH]. }
  intros He. specialize (H He).
  destruct (_status (run _config (init b) l)); auto. done.
Qed.

(** ** The invocations that have not returned *)

Lemma consistent_ids (s : AsyncCart) :
  consistent s -> forall i, In i (pending s) -> inv_id i < invocations s.
Proof.
  intros (Hc & k & b & Hs & Hle & Hw & Hx) i Hi.
  unfold pending in Hi. apply in_app_or in Hi as [Hi|Hi].
  - destruct (executing (_queue s)) as [|[inv p] [|]]; try done.
    destruct Hx as [_ ->]. cbn in Hi. destruct Hi as [<-|[]]. lia.
  - apply (in_map inv_id) in Hi. rewrite Hw in Hi.
    apply in_seq in Hi. lia.
Qed.

Lemma body_pending (op : operation) inv (s : AsyncCart) :
  concurrency (_queue s) = 1 ->
  executing (_queue s) = [] ->
  pending (body _config op inv s) = inv :: waiting (_queue s) \/
  exists c, inv_id c = invocations s /\
            pending (body _config op inv s) = inv :: waiting (_queue s) ++ [c].
Proof.
  intros Hc He.
  assert (forall r, pending (call_provider _config inv r s) = inv :: waiting (_queue s)) as Hcall.
  { intros r. unfold call_provider, pending. cbn.
    destruct (perform _config r (backend s)) as [o b']. cbn. rewrite He. reflexivity. }
  destruct op as [id|input|m]; unfold body, create_body; auto.
  destruct (_cart s) as [c|]; auto.
  right. unfold create_invocation. rewrite enqueue_form.
  - eexists. split; [|unfold pending; cbn; rewrite He; reflexivity]. reflexivity.
  - apply (has_room_one _ (inv, AtCreate m (invocations s))); cbn; [done|].
    rewrite He. reflexivity.
Qed.

Lemma step_pending (s : AsyncCart) (x : stimulus) :
  consistent s ->
  forall i, In i (pending (step _config s x)) ->
    In i (pending s) \/
    match x with
    | Invoke op => i = invocation_of _config op s \/ S (invocations s) <= inv_id i
    | Settle _ => invocations s <= inv_id i
    end.
Proof.
  intros Hs i. destruct x as [op|id]; cbn [step].
  - rewrite invoke_runCartOperation.
    destruct (executing (_queue s)) as [|e x] eqn:He.
    + rewrite runCartOperation_from_idle by done. cbn zeta.
      fold (invocation_of _config op s).
      rewrite (waiting_from_idle s Hs He) || idtac.
      match goal with |- context [body _config op ?i ?s0] =>
        destruct (body_pending op i s0) as [->|(c & Hc & ->)] end;
        try (cbn; solve [apply Hs | exact He]).
      * cbn. rewrite (waiting_from_idle s Hs He). cbn. intros [<-|[]]. auto.
      * cbn. rewrite (waiting_from_idle s Hs He). cbn. intros [<-|[<-|[]]]; auto.
        right. right. cbn in Hc. lia.
    + destruct Hs as (Hc & k & b & Hs & Hle & Hw & Hx).
      rewrite He in Hx. destruct e as [i0 p], x; [|done].
      unfold runCartOperation. rewrite enqueue_form
        by (apply (has_room_one _ (i0, p)); done).
      unfold pending. cbn. rewrite He. cbn.
      intros [<-|Hi]; [auto|].
      apply in_app_or in Hi as [Hi|[<-|[]]]; [left; right; exact Hi|].
      right. left. reflexivity.
  - destruct (settle_cases id s Hs) as [->|(inv & o & He & _ & ->)]; [auto|].
    unfold pending at 1.
    destruct (resumed_fields inv o (queue_next _config (finished inv o s)))
      as (_ & -> & _).
    fold (pending (queue_next _config (finished inv o s))).
    unfold queue_next. cbn [executing waiting set_executing finished observe set_queue _queue].
    destruct (waiting (_queue s)) as [|inv' w] eqn:Hw.
    + destruct (on_idle_fields (finished inv o s)) as (_ & _ & _ & Hq' & _).
      unfold pending. rewrite Hq'. cbn. rewrite Hw. done.
    + unfold has_room. cbn.
      replace (concurrency (_queue s)) with 1 by (symmetry; apply Hs).
      cbn.
      match goal with |- context [body _config ?op ?i ?s0] =>
        destruct (body_pending op i s0) as [->|(c & Hc & ->)] end;
        try (cbn; solve [apply Hs | reflexivity]).
      * cbn. intros Hi. left. unfold pending. rewrite He, Hw. cbn. auto.
      * cbn. cbn in Hc. intros [<-|Hi].
        -- left. unfold pending. rewrite He, Hw. cbn. auto.
        -- apply in_app_or in Hi as [Hi|[<-|[]]].
           ++ left. unfold pending. rewrite He, Hw. cbn. auto.
           ++ right. lia.
Qed.

Lemma step_invocations (s : AsyncCart) (x : stimulus) :
  consistent s -> invocations s <= invocations (step _config s x).
Proof.
  intros Hs. destruct x as [op|id]; cbn [step].
  - rewrite invoke_runCartOperation. apply quiet_runCartOperation.
  - destruct (settle_cases id s Hs) as [->|(inv & o & He & _ & ->)]; [done|].
    destruct (resumed_fields inv o (queue_next _config (finished inv o s)))
      as (_ & _ & _ & ->).
    apply (quiet_queue_next (finished inv o s)).
Qed.

(** The invocation numbered [n] that has not returned is still the one
    that was made. *)
Lemma run_remembers (s : AsyncCart) (l : list stimulus) (made : invocation) :
  consistent s ->
  inv_id made < invocations s ->
  (forall i, In i (pending s) -> inv_id i = inv_id made -> i = made) ->
  inv_id made < invocations (run _config s l) /\
  forall i, In i (pending (run _config s l)) -> inv_id i = inv_id made -> i = made.
Proof.
  revert s. induction l as [|x l IH]; intros s Hs Hn Hp; [done|].
  cbn. apply IH.
  - apply step_consistent; exact Hs.
  - pose proof (step_invocations s x Hs). lia.
  - intros i Hi Hid. destruct (step_pending s x Hs i Hi) as [H|H]; [auto|].
    destruct x as [op|id]; [destruct H as [->|H]|]; cbn in *; lia.
Qed.

(** ** The calls of the idle handler *)

Lemma on_idle_calls (s : AsyncCart) :
  calls_of (trace (on_idle _config s)) = calls_of (trace s).
Proof.
  rewrite on_idle_trace. unfold calls_of. rewrite omap_app.
  destruct (_cart s); [destruct (differs _ _)|]; cbn; apply app_nil_r.
Qed.

(** ** A mutation started without a snapshot *)

Lemma invoke_without_cart (m : mutation) (s : AsyncCart) :
  consistent s ->
  executing (_queue s) = [] ->
  _cart s = None ->
  let n := invocations s in
  let s1 := step _config s (Invoke (EnsureThen m)) in
  executing (_queue s1) = [(invocation_of _config (EnsureThen m) s, AtCreate m (S n))] /\
  waiting (_queue s1) =
    [{| inv_id := S n; inv_operation := CreateWith no_input;
        inv_result := None; inv_currentRevisionId := None |}] /\
  _cart s1 = None /\
  _status s1 = UPDATING /\
  trace s1 =
  trace s ++
    [Dispatch (CartStatusChangeEvent UPDATING); Submit n; Start n;
     Dispatch (CartStatusChangeEvent UPDATING); Submit (S n)].
Proof.
  intros Hs He Hc n s1. unfold s1. cbn [step].
  rewrite invoke_runCartOperation, runCartOperation_from_idle by done.
  cbn zeta. unfold body. cbn [_cart observe dispatchEvent set_status count_invocation].
  rewrite Hc. unfold create_invocation. rewrite enqueue_form.
  - cbn. rewrite He, Hc, (waiting_from_idle s Hs He). cbn.
    rewrite <- !app_assoc. unfold invocation_of, n. rewrite Hc. done.
  - match goal with |- has_room (_queue (suspend ?i ?p _)) = _ =>
      apply (has_room_one _ (i, p)) end; cbn; [apply Hs|rewrite He; reflexivity].
Qed.

Lemma blocked_step (s : AsyncCart) (x : stimulus) outer (m : mutation) i :
  consistent s ->
  executing (_queue s) = [(outer, AtCreate m i)] ->
  let s' := step _config s x in
  executing (_queue s') = executing (_queue s) /\
  _cart s' = _cart s /\
  (_status s = UPDATING -> _status s' = UPDATING) /\
  calls_of (trace s') = calls_of (trace s) /\
  returns_of (trace s') = returns_of (trace s) /\
  exists w, waiting (_queue s') = waiting (_queue s) ++ w.
Proof.
  intros Hs He s'. unfold s'. destruct x as [op|id]; cbn [step].
  - rewrite invoke_runCartOperation. unfold runCartOperation.
    rewrite enqueue_form
      by (apply (has_room_one _ (outer, AtCreate m i)); [apply Hs|exact He]).
    cbn. unfold calls_of, returns_of. rewrite !omap_app. cbn.
    rewrite !app_nil_r. repeat split; try done. eauto.
  - rewrite settle_elsewhere; [|exact Hs|rewrite He; done].
    repeat split; try done. exists []. rewrite app_nil_r. reflexivity.
Qed.

Lemma blocked_run (s : AsyncCart) (l : list stimulus) outer (m : mutation) i :
  consistent s ->
  executing (_queue s) = [(outer, AtCreate m i)] ->
  let s' := run _config s l in
  executing (_queue s') = executing (_queue s) /\
  _cart s' = _cart s /\
  (_status s = UPDATING -> _status s' = UPDATING) /\
  calls_of (trace s') = calls_of (trace s) /\
  returns_of (trace s') = returns_of (trace s) /\
  exists w, waiting (_queue s') = waiting (_queue s) ++ w.
Proof.
  revert s. induction l as [|x l IH]; intros s Hs He; cbn.
  - repeat split; try done. exists []. rewrite app_nil_r. reflexivity.
  - destruct (blocked_step s x outer m i Hs He) as (He1 & Hc1 & Hst1 & Hca1 & Hr1 & w1 & Hw1).
    assert (executing (_queue (step _config s x)) = [(outer, AtCreate m i)]) as He'
      by (rewrite He1; exact He).
    destruct (IH (step _config s x) (step_consistent _ _ Hs) He')
      as (He2 & Hc2 & Hst2 & Hca2 & Hr2 & w2 & Hw2).
    change (fold_left (step _config) l (step _config s x))
      with (run _config (step _config s x) l).
    split; [congruence|]. split; [congruence|]. split; [auto|].
    split; [congruence|]. split; [congruence|].
    exists (w1 ++ w2). rewrite Hw2, Hw1, app_assoc. reflexivity.
Qed.

(** C1, on the code.  In every state the class can reach in which nothing
    executes and there is no snapshot, invoke any of the six mutation
    methods ([EnsureThen m]; [updateAttributes] is [m = Attributes input]),
    and let anything follow (further invocations, settlements).  Then no
    provider operation is ever called again: neither the provider's
    [create] nor the mutation.  The closure of the method stays suspended at
    [await this.create({})], the task of that [create] stays first in the
    queue behind it, no invocation returns, the snapshot stays absent and
    the status stays [UPDATING]. *)
Theorem C1_mutation_without_snapshot_never_calls_the_provider
    (b : Backend) (l l' : list stimulus) (m : mutation) :
  let s := run _config (init b) l in
  let n := invocations s in
  executing (_queue s) = [] ->
  _cart s = None ->
  let s' := run _config (step _config s (Invoke (EnsureThen m))) l' in
  calls_of (trace s') = calls_of (trace s) /\
  returns_of (trace s') = returns_of (trace s) /\
  _cart s' = None /\
  _status s' = UPDATING /\
  executing (_queue s') =
    [(invocation_of _config (EnsureThen m) s, AtCreate m (S n))] /\
  exists w,
    waiting (_queue s') =
    {| inv_id := S n; inv_operation := CreateWith no_input;
       inv_result := None; inv_currentRevisionId := None |} :: w.
Proof.
  intros s n He Hc s'.
  assert (consistent s) as Hs by apply reachable_consistent.
  destruct (invoke_without_cart m s Hs He Hc) as (He1 & Hw1 & Hc1 & Hst1 & Ht1).
  destruct (blocked_run (step _config s (Invoke (EnsureThen m))) l' _ m _
              (step_consistent _ _ Hs) He1)
    as (He2 & Hc2 & Hst2 & Hca2 & Hr2 & w & Hw2).
  fold s' in He2, Hc2, Hst2, Hca2, Hr2, Hw2.
  rewrite Hca2, Hr2, Hc2, He2, Hw2, Ht1, Hw1.
  unfold calls_of, returns_of. rewrite !omap_app. cbn. rewrite !app_nil_r.
  repeat split; try done; auto. eauto.
Qed.

(** ** What a trace in order looks like *)

Lemma serial_none (d : list observation) : fold_left in_order d None = None.
Proof. induction d as [|o d IH]; [reflexivity|exact IH]. Qed.

Lemma serial_prefix (t d : list observation) sc :
  serial (t ++ d) = Some sc -> exists sc', serial t = Some sc'.
Proof.
  unfold serial. rewrite fold_left_app.
  destruct (fold_left in_order t _) as [sc'|]; [eauto|].
  rewrite serial_none. done.
Qed.

Lemma seq_snoc_zero (n : nat) : seq 0 n ++ [n] = seq 0 (S n).
Proof. rewrite seq_S. reflexivity. Qed.

Lemma serial_shape (t : list observation) sc :
  serial t = Some sc ->
  submits_of t = seq 0 (submitted sc) /\
  starts_of t = seq 0 (started sc) /\
  started sc <= submitted sc /\
  match busy sc with
  | None => finishes_of t = seq 0 (started sc)
  | Some i => S i = started sc /\ finishes_of t = seq 0 i
  end.
Proof.
  revert sc. induction t as [|o t IH] using rev_ind; intros sc H.
  - injection H as <-. cbn. auto with arith.
  - rewrite serial_snoc in H.
    destruct (serial t) as [sc0|]; [|done].
    destruct (IH sc0 eq_refl) as (Hsub & Hsta & Hle & Hb).
    unfold submits_of, starts_of, finishes_of in *.
    rewrite !omap_app, Hsub, Hsta.
    destruct o as [ev|err|r|id|id|id o|id v]; cbn [in_order] in H.
    + injection H as <-. cbn. rewrite !app_nil_r. done.
    + injection H as <-. cbn. rewrite !app_nil_r. done.
    + destruct (busy sc0) eqn:Hbusy; [|done]. injection H as <-.
      cbn. rewrite !app_nil_r, Hbusy. done.
    + destruct (id =? submitted sc0) eqn:E; [|done].
      apply Nat.eqb_eq in E as ->. injection H as <-. cbn.
      rewrite !app_nil_r, seq_snoc_zero.
      split; [done|]. split; [done|]. split; [lia|exact Hb].
    + destruct (busy sc0) eqn:Hbusy; [done|].
      destruct (id =? started sc0) eqn:E; cbn [andb] in H; [|done].
      destruct (id <? submitted sc0) eqn:E'; [|done].
      apply Nat.eqb_eq in E as ->. apply Nat.ltb_lt in E'.
      injection H as <-. cbn.
      rewrite !app_nil_r, seq_snoc_zero.
      split; [done|]. split; [done|]. split; [lia|]. split; [done|exact Hb].
    + destruct (busy sc0) as [i|] eqn:Hbusy; [|done].
      destruct (id =? i) eqn:E; [|done].
      apply Nat.eqb_eq in E as ->. injection H as <-. cbn.
      destruct Hb as [Hi ->].
      rewrite !app_nil_r, seq_snoc_zero, Hi. repeat split; try done; lia.
    + injection H as <-. cbn. rewrite !app_nil_r. done.
Qed.

Lemma serial_before_start (t1 t2 : list observation) (j : nat) sc :
  serial (t1 ++ Start j :: t2) = Some sc ->
  exists sc0, serial t1 = Some sc0 /\ busy sc0 = None /\ started sc0 = j /\
              j < submitted sc0.
Proof.
  rewrite cons_middle, app_assoc. intros H.
  apply serial_prefix in H as (sc1 & H1).
  rewrite serial_snoc in H1.
  destruct (serial t1) as [sc0|]; [|done]. cbn [in_order] in H1.
  destruct (busy sc0) eqn:Hb; [done|].
  destruct (j =? started sc0) eqn:E; cbn [andb] in H1; [|done].
  destruct (j <? submitted sc0) eqn:E'; [|done].
  apply Nat.eqb_eq in E. apply Nat.ltb_lt in E'.
  exists sc0. done.
Qed.

Lemma serial_before_call (t1 t2 : list observation) (r : request) sc :
  serial (t1 ++ Call r :: t2) = Some sc ->
  exists sc0 i, serial t1 = Some sc0 /\ busy sc0 = Some i.
Proof.
  rewrite cons_middle, app_assoc. intros H.
  apply serial_prefix in H as (sc1 & H1).
  rewrite serial_snoc in H1.
  destruct (serial t1) as [sc0|]; [|done]. cbn [in_order] in H1.
  destruct (busy sc0) as [i|] eqn:Hb; [|done].
  exists sc0, i. done.
Qed.

Lemma in_submits (t : list observation) (j : nat) :
  In j (submits_of t) -> In (Submit j) t.
Proof.
  induction t as [|o t IH]; [done|].
  destruct o; cbn; try (intros H; right; apply IH; exact H).
  intros [->|H]; [left; reflexivity|right; apply IH; exact H].
Qed.

(** ** One task at a time, in the order of submission *)

(** C4.  In every trace the class can produce, invocations are numbered in
    the order in which their tasks are submitted to the queue; and wherever
    the queue starts a task [j], the tasks started before it are exactly
    the tasks [0], ..., [j - 1], in this order (tasks are started in the
    order of submission, none is skipped), every one of them has finished
    before (no other task is executing when [j] starts), and [j] had been
    submitted.  Wherever a provider operation is called, exactly one task
    is unfinished, the one started last.  In the state reached at most one
    task is executing. *)
Theorem C4_one_task_at_a_time_in_submission_order
    (b : Backend) (l : list stimulus) (t1 t2 : list observation) (j : nat) :
  let s := run _config (init b) l in
  trace s = t1 ++ Start j :: t2 ->
  submits_of (trace s) = seq 0 (invocations s) /\
  starts_of t1 = seq 0 j /\
  finishes_of t1 = seq 0 j /\
  In (Submit j) t1 /\
  (forall u1 r u2,
     trace s = u1 ++ Call r :: u2 ->
     exists i, starts_of u1 = seq 0 (S i) /\ finishes_of u1 = seq 0 i) /\
  length (executing (_queue s)) <= 1.
Proof.
  intros s Ht.
  destruct (reachable_consistent b l) as (Hc & k & bz & Hser & Hle & Hw & Hx).
  fold s in Hc, Hser, Hle, Hw, Hx.
  split; [apply (serial_shape _ _ Hser)|].
  pose proof Hser as Hser'. rewrite Ht in Hser'.
  apply serial_before_start in Hser' as (sc0 & H0 & Hb & Hj & Hlt).
  destruct (serial_shape _ _ H0) as (Hsub & Hsta & _ & Hfin).
  rewrite Hb, Hj in *.
  split; [exact Hsta|]. split; [exact Hfin|].
  split; [apply in_submits; rewrite Hsub; apply in_seq; lia|].
  split.
  - intros u1 r u2 Hu. pose proof Hser as Hser'. rewrite Hu in Hser'.
    apply serial_before_call in Hser' as (sc1 & i & H1 & Hb1).
    destruct (serial_shape _ _ H1) as (_ & Hsta1 & _ & Hfin1).
    rewrite Hb1 in Hfin1. destruct Hfin1 as [Hi Hfin1].
    exists i. rewrite Hsta1, <- Hi. done.
  - destruct (executing (_queue s)) as [|? [|]]; cbn; try lia. destruct p; done.
Qed.

End Properties.

(** * Further properties *)

Section Further.

Context {CT BT LT Rejection Backend : Type}.
Variable _config : ProviderConfig CT BT LT Rejection Backend.

#[local] Abbreviation observation := (observation CT BT LT Rejection).
#[local] Abbreviation AsyncCart := (AsyncCart CT BT LT Rejection Backend).
#[local] Abbreviation invocation := (invocation CT BT LT).
#[local] Abbreviation operation := (operation BT LT).
#[local] Abbreviation mutation := (mutation BT LT).
#[local] Abbreviation request := (request CT BT LT).
#[local] Abbreviation settlement := (settlement CT Rejection).
#[local] Abbreviation thrown := (thrown Rejection).
#[local] Abbreviation stimulus := (stimulus BT LT).

(** ** The trace of a step *)

Lemma call_provider_trace inv (r : request) (s : AsyncCart) :
  trace (call_provider _config inv r s) = trace s ++ [Call r].
Proof.
  unfold call_provider. cbn.
  destruct (perform _config r (backend s)) as [o b']. reflexivity.
Qed.

Lemma body_trace inv (s : AsyncCart) :
  concurrency (_queue s) = 1 ->
  executing (_queue s) = [] ->
  trace (body _config (inv_operation inv) inv s) =
  trace s ++ tail (start_events inv (_cart s) (invocations s)).
Proof.
  intros Hc He. unfold start_events. cbn [tail].
  destruct (first_request (inv_operation inv) (_cart s)) as [r|] eqn:Hr.
  - rewrite (body_first_request _config _ _ _ r Hr). apply call_provider_trace.
  - destruct (inv_operation inv) as [id|input|m]; try done.
    cbn in Hr. destruct (_cart s) eqn:Hcart; [done|].
    unfold body. rewrite Hcart. unfold create_invocation.
    rewrite enqueue_form.
    + cbn. rewrite <- app_assoc. reflexivity.
    + apply (has_room_one _ (inv, AtCreate m (invocations s))); cbn; [done|].
      rewrite He. reflexivity.
Qed.

Lemma queue_next_trace (s : AsyncCart) :
  concurrency (_queue s) = 1 ->
  executing (_queue s) = [] ->
  trace (queue_next _config s) =
  trace s ++
    match waiting (_queue s) with
    | [] => idle_events _config (_cart s) (_previousCartRevisionId s)
    | next :: _ => start_events next (_cart s) (invocations s)
    end.
Proof.
  intros Hc He. destruct (waiting (_queue s)) as [|next w] eqn:Hw.
  - rewrite drained by done. apply on_idle_trace.
  - unfold queue_next. rewrite Hw, has_room_none by done.
    rewrite body_trace by done. cbn.
    unfold start_events. cbn [tail]. rewrite <- app_assoc. reflexivity.
Qed.

Lemma finished_next_trace inv o (s : AsyncCart) :
  consistent s ->
  trace (queue_next _config (finished inv o s)) =
  trace s ++ Finish (inv_id inv) o :: next_events _config s.
Proof.
  intros Hs. rewrite queue_next_trace; [|apply Hs|reflexivity].
  cbn. rewrite <- app_assoc. reflexivity.
Qed.

(** In a consistent state, a step adds to the trace what [step_events]
    says. *)
Lemma step_traced (s : AsyncCart) (x : stimulus) :
  consistent s ->
  trace (step _config s x) = trace s ++ step_events _config s x.
Proof.
  intros Hs. destruct x as [op|id]; cbn [step step_events].
  - rewrite invoke_runCartOperation. unfold invoke_events.
    destruct (executing (_queue s)) as [|e l] eqn:He.
    + rewrite runCartOperation_from_idle by done. cbn zeta.
      fold (invocation_of _config op s).
      change op with (inv_operation (invocation_of _config op s)) at 1.
      rewrite body_trace by (cbn; solve [apply Hs|exact He]).
      cbn. unfold start_events. cbn [tail]. rewrite <- !app_assoc. reflexivity.
    + destruct Hs as (Hc & k & b & Hs & Hle & Hw & Hx).
      rewrite He in Hx. destruct e as [i p], l; [|done].
      unfold runCartOperation. rewrite enqueue_form
        by (apply (has_room_one _ (i, p)); done).
      cbn. rewrite <- app_assoc. reflexivity.
  - unfold settle_events.
    destruct (executing (_queue s)) as [|[inv [o|m i]] [|]] eqn:He;
      try (rewrite settle_elsewhere; [symmetry; apply app_nil_r|exact Hs|rewrite He; done]).
    destruct (inv_id inv =? id) eqn:E.
    + apply Nat.eqb_eq in E as <-.
      rewrite (settle_running _config inv o) by done.
      rewrite resumed_trace, finished_next_trace by exact Hs.
      rewrite <- app_assoc. reflexivity.
    + apply Nat.eqb_neq in E.
      rewrite settle_elsewhere; [symmetry; apply app_nil_r|exact Hs|].
      rewrite He. intros ? ? [= <- _]. exact E.
Qed.

(** ** The fields after a step *)

(** The cases of what a step adds to the trace. *)
Ltac events_cases :=
  repeat match goal with
    | |- context [first_request ?a ?b] => destruct (first_request a b)
    | |- context [differs ?a ?b] => destruct (differs a b)
    | |- context [match _cart ?s with _ => _ end] => destruct (_cart s)
    end;
  cbn.

Lemma body_fields inv (s : AsyncCart) :
  concurrency (_queue s) = 1 ->
  executing (_queue s) = [] ->
  _status (body _config (inv_operation inv) inv s) =
    match first_request (inv_operation inv) (_cart s) with
    | Some _ => _status s
    | None => UPDATING
    end /\
  invocations (body _config (inv_operation inv) inv s) =
    match first_request (inv_operation inv) (_cart s) with
    | Some _ => invocations s
    | None => S (invocations s)
    end.
Proof.
  intros Hc He.
  destruct (first_request (inv_operation inv) (_cart s)) as [r|] eqn:Hr.
  - rewrite (body_first_request _config _ _ _ r Hr).
    split; [apply call_provider_status|].
    unfold call_provider. cbn.
    destruct (perform _config r (backend s)) as [o b']. reflexivity.
  - destruct (inv_operation inv) as [id|input|m]; try done.
    cbn in Hr. destruct (_cart s) eqn:Hcart; [done|].
    unfold body. rewrite Hcart. unfold create_invocation.
    rewrite enqueue_form.
    + cbn. done.
    + apply (has_room_one _ (inv, AtCreate m (invocations s))); cbn; [done|].
      rewrite He. reflexivity.
Qed.

Lemma queue_next_fields (s : AsyncCart) :
  concurrency (_queue s) = 1 ->
  executing (_queue s) = [] ->
  _status (queue_next _config s) =
    match waiting (_queue s) with
    | next :: _ =>
        match first_request (inv_operation next) (_cart s) with
        | Some _ => _status s
        | None => UPDATING
        end
    | [] => _status s
    end /\
  invocations (queue_next _config s) =
    match waiting (_queue s) with
    | next :: _ =>
        match first_request (inv_operation next) (_cart s) with
        | Some _ => invocations s
        | None => S (invocations s)
        end
    | [] => invocations s
    end.
Proof.
  intros Hc He. destruct (waiting (_queue s)) as [|next w] eqn:Hw.
  - rewrite drained by done.
    destruct (on_idle_fields _config s) as (-> & _ & _ & _ & _ & ->). done.
  - unfold queue_next. rewrite Hw, has_room_none by done.
    match goal with |- context [body _ _ next ?s0] =>
      apply (body_fields next s0); cbn; done end.
Qed.

(** After a step from a consistent state the status is the last one
    announced by the step, if it announced one; the snapshot is the cart
    of the last task that resolved in the step, if one did; and there is
    one more invocation for each task the step submitted. *)
Lemma step_fields (s : AsyncCart) (x : stimulus) :
  consistent s ->
  _status (step _config s x) =
    default (_status s) (last (statuses_of (step_events _config s x))) /\
  _cart (step _config s x) =
    match last (resolved_of (step_events _config s x)) with
    | Some c => Some c
    | None => _cart s
    end /\
  invocations (step _config s x) =
    invocations s + length (submits_of (step_events _config s x)).
Proof.
  intros Hs. destruct x as [op|id]; cbn [step step_events].
  - rewrite invoke_runCartOperation. unfold invoke_events.
    destruct (quiet_runCartOperation _config op s) as (Hcart & _).
    rewrite Hcart, runCartOperation_status.
    destruct (executing (_queue s)) as [|e l] eqn:He.
    + rewrite runCartOperation_from_idle by done. cbn zeta.
      fold (invocation_of _config op s).
      change op with (inv_operation (invocation_of _config op s)) at 3.
      match goal with |- context [body _ _ ?i ?s0] =>
        destruct (body_fields i s0) as (_ & ->);
          [apply Hs|exact He|] end.
      unfold start_events. cbn.
      destruct (first_request op (_cart s)); cbn; repeat split; lia.
    + destruct Hs as (Hc & k & b & Hs & Hle & Hw & Hx).
      rewrite He in Hx. destruct e as [i p], l; [|done].
      unfold runCartOperation. rewrite enqueue_form
        by (apply (has_room_one _ (i, p)); done).
      cbn. repeat split; lia.
  - unfold settle_events.
    destruct (executing (_queue s)) as [|[inv [o|m i]] [|]] eqn:He;
      try (rewrite settle_elsewhere; [cbn; repeat split; lia|exact Hs|rewrite He; done]).
    destruct (inv_id inv =? id) eqn:E.
    + apply Nat.eqb_eq in E as <-.
      rewrite (settle_running _config inv o) by done.
      destruct (resumed_fields _config inv o (queue_next _config (finished inv o s)))
        as (-> & _ & _ & ->).
      destruct (resumed_snapshot _config inv o (queue_next _config (finished inv o s)))
        as (-> & _).
      destruct (quiet_queue_next _config (finished inv o s)) as (Hcart & _).
      destruct (queue_next_fields (finished inv o s)) as (_ & ->);
        [apply Hs|reflexivity|].
      unfold snapshot_after. rewrite Hcart.
      cbn [finished observe set_queue set_executing _queue _cart waiting invocations].
      unfold next_events, resumed_events, start_events, idle_events.
      destruct o as [c|e], (waiting (_queue s)) as [|next w];
        events_cases; repeat split; lia.
    + apply Nat.eqb_neq in E.
      rewrite settle_elsewhere; [cbn; repeat split; lia|exact Hs|].
      rewrite He. intros ? ? [= <- _]. exact E.
Qed.

(** ** Induction over the runs of the class *)

Lemma reachable_ind (P : AsyncCart -> Prop) (b : Backend) :
  P (init b) ->
  (forall s x, consistent s -> P s -> P (step _config s x)) ->
  forall l, P (run _config (init b) l).
Proof.
  intros H0 Hstep l. induction l as [|x l IH] using rev_ind.
  - exact H0.
  - rewrite run_snoc. apply Hstep; [apply reachable_consistent|exact IH].
Qed.

Lemma wherever_snoc (P : observation -> list observation -> Prop) t x :
  wherever P t -> P x t -> wherever P (t ++ [x]).
Proof.
  intros Ht Hx t1 y t2 H.
  destruct t2 as [|z t2 _] using rev_ind.
  - apply app_inj_tail in H as [-> ->]. exact Hx.
  - rewrite app_comm_cons, app_assoc in H. apply app_inj_tail in H as [H _].
    apply (Ht _ _ _ H).
Qed.

Lemma wherever_app (P : observation -> list observation -> Prop) t d :
  wherever P t -> and_then P t d -> wherever P (t ++ d).
Proof.
  revert t. induction d as [|x d IH]; intros t Ht Hd.
  - rewrite app_nil_r. exact Ht.
  - destruct Hd as [Hx Hd].
    replace (t ++ x :: d) with ((t ++ [x]) ++ d)
      by (rewrite <- app_assoc; reflexivity).
    apply IH; [apply wherever_snoc; done|exact Hd].
Qed.

Lemma wherever_run (P : observation -> list observation -> Prop) (b : Backend) :
  (forall s x, consistent s -> and_then P (trace s) (step_events _config s x)) ->
  forall l, wherever P (trace (run _config (init b) l)).
Proof.
  intros H l. apply (reachable_ind (fun s => wherever P (trace s))).
  - intros t1 x t2 E. destruct t1; discriminate.
  - intros s x Hs IH. rewrite step_traced by exact Hs.
    apply wherever_app; [exact IH|apply H, Hs].
Qed.

(** ** The snapshot and the status against the trace *)


(** X2.  Once there is a snapshot there is one for ever: whatever is
    invoked and however the provider promises settle afterwards, the
    getter [cart] does not give [null] again. *)
Theorem snapshot_is_never_unset (b : Backend) (l l' : list stimulus) :
  is_Some (cart (run _config (init b) l)) ->
  is_Some (cart (run _config (init b) (l ++ l'))).
Proof.
  unfold cart. intros H. induction l' as [|x l' IH] using rev_ind.
  - rewrite app_nil_r. exact H.
  - rewrite app_assoc, run_snoc.
    destruct (step_fields (run _config (init b) (l ++ l')) x) as (_ & -> & _);
      [apply reachable_consistent|].
    destruct (last _); [eexists; reflexivity|exact IH].
Qed.

(** X3.  In every state the class can reach, the status that the getter
    [status] gives is the one announced by the last "statuschange" event,
    and it is [IDLE] when no such event was dispatched: a listener of
    "statuschange" always knows the status. *)
Theorem status_is_the_last_announced (b : Backend) (l : list stimulus) :
  status (run _config (init b) l) =
  default IDLE (last (statuses_of (trace (run _config (init b) l)))).
Proof.
  unfold status.
  apply (reachable_ind (fun s => _status s = default IDLE (last (statuses_of (trace s))))).
  - reflexivity.
  - intros s x Hs IH.
    destruct (step_fields s x Hs) as (-> & _).
    rewrite step_traced by exact Hs.
    unfold statuses_of in *. rewrite omap_app, last_app, IH.
    destruct (last (omap _ (step_events _config s x))); reflexivity.
Qed.

(** ** What is announced, reported and returned *)

(** Every form of what a step adds to the trace. *)
Ltac step_cases s x :=
  destruct x as [?op|?id]; cbn [step_events];
  unfold invoke_events, settle_events, next_events, resumed_events, start_events,
    idle_events;
  [ destruct (executing (_queue s)) as [|? ?]
  | destruct (executing (_queue s)) as [|[?inv [[?c|?e]|? ?]] [|]];
    try destruct (inv_id _ =? _) eqn:?;
    try destruct (waiting (_queue s)) ];
  events_cases.

Lemma announced_app (st : CartStatus) (t d : list observation) :
  announced st (t ++ d) = announced st t + announced st d.
Proof.
  unfold announced, statuses_of. rewrite omap_app, filter_app, length_app.
  reflexivity.
Qed.

Lemma step_announced (s : AsyncCart) (x : stimulus) :
  announced UPDATING (step_events _config s x) =
    length (submits_of (step_events _config s x)) /\
  announced READY (step_events _config s x) =
    length (returns_of (step_events _config s x)) /\
  announced IDLE (step_events _config s x) = 0.
Proof. step_cases s x; done. Qed.

(** X4.  On every run of the class there is one "statuschange" event
    announcing [UPDATING] for each invocation of [runCartOperation], one
    announcing [READY] for each invocation that has returned, and none
    announcing [IDLE]. *)
Theorem one_statuschange_per_invocation_and_return (b : Backend) (l : list stimulus) :
  let s := run _config (init b) l in
  announced UPDATING (trace s) = invocations s /\
  announced READY (trace s) = length (returns_of (trace s)) /\
  announced IDLE (trace s) = 0.
Proof.
  cbn zeta.
  apply (reachable_ind (fun s =>
    announced UPDATING (trace s) = invocations s /\
    announced READY (trace s) = length (returns_of (trace s)) /\
    announced IDLE (trace s) = 0)).
  - done.
  - intros s x Hs (IH1 & IH2 & IH3).
    destruct (step_fields s x Hs) as (_ & _ & ->).
    destruct (step_announced s x) as (H1 & H2 & H3).
    rewrite step_traced by exact Hs.
    rewrite !announced_app, IH1, IH2, IH3, H1, H2, H3.
    unfold returns_of. rewrite omap_app, length_app. done.
Qed.

(** X5.  On every run of the class the errors handed to [onError] are the
    rejections of the tasks that failed, one for one and in the order in
    which they failed: no failure goes unreported, none is reported twice,
    and nothing is reported without a failure. *)
Theorem onError_once_per_failed_task (b : Backend) (l : list stimulus) :
  errors_of (trace (run _config (init b) l)) =
  rejections_of (trace (run _config (init b) l)).
Proof.
  apply (reachable_ind (fun s => errors_of (trace s) = rejections_of (trace s))).
  - reflexivity.
  - intros s x Hs IH. rewrite step_traced by exact Hs.
    unfold errors_of, rejections_of in *. rewrite !omap_app, IH. f_equal.
    clear. step_cases s x; reflexivity.
Qed.

Lemma returns_are_finishes (b : Backend) (l : list stimulus) :
  map fst (returns_of (trace (run _config (init b) l))) =
  finishes_of (trace (run _config (init b) l)).
Proof.
  apply (reachable_ind (fun s => map fst (returns_of (trace s)) = finishes_of (trace s))).
  - reflexivity.
  - intros s x Hs IH. rewrite step_traced by exact Hs.
    unfold returns_of, finishes_of in *. rewrite !omap_app, map_app, IH. f_equal.
    clear. step_cases s x; reflexivity.
Qed.


(** ** The events of the idle handler *)

(** X7.  The class dispatches cart events of two names only, "idle" and
    "change"; a "change" event carries a snapshot, never [null], and it
    comes right after an "idle" event that carries the same snapshot. *)
Theorem change_follows_idle (b : Backend) (l : list stimulus) :
  wherever
    (fun x before =>
       match x with
       | Dispatch (CartEvent name c) =>
           name = "idle" \/
           name = "change" /\
           exists c', c = Some c' /\
             last before = Some (Dispatch (CartEvent "idle" (Some c')))
       | _ => True
       end)
    (trace (run _config (init b) l)).
Proof.
  apply wherever_run. intros s x _.
  step_cases s x; repeat split; auto;
    right; (split; [reflexivity|]); eexists; (split; [reflexivity|]);
    apply last_snoc.
Qed.

Lemma last_task_finishing (s : AsyncCart) inv p :
  consistent s ->
  executing (_queue s) = [(inv, p)] ->
  waiting (_queue s) = [] ->
  finishes_of (trace s) ++ [inv_id inv] = submits_of (trace s).
Proof.
  intros (Hc & k & bz & Hser & Hle & Hw & Hx) He Hwait.
  rewrite He in Hx. destruct Hx as [-> ->].
  destruct (serial_shape _ _ Hser) as (-> & _ & _ & _ & ->). cbn.
  rewrite Hwait in Hw. apply (f_equal length) in Hw.
  rewrite length_seq in Hw. cbn in Hw.
  replace (invocations s) with (S (inv_id inv)) by lia.
  apply seq_snoc_zero.
Qed.

(** X8.  An "idle" event is dispatched only when every task submitted to
    the queue has finished: never while a task is executing or waiting. *)
Theorem idle_only_when_every_task_has_finished (b : Backend) (l : list stimulus) :
  wherever
    (fun x before =>
       match x with
       | Dispatch (CartEvent name _) =>
           name = "idle" -> finishes_of before = submits_of before
       | _ => True
       end)
    (trace (run _config (init b) l)).
Proof.
  apply wherever_run. intros s x Hs.
  destruct x as [op|id]; cbn [step_events];
    unfold invoke_events, settle_events, next_events, resumed_events, start_events,
      idle_events.
  - destruct (executing (_queue s)); events_cases; done.
  - destruct (executing (_queue s)) as [|[inv [o|m i]] [|]] eqn:He; try done.
    destruct (inv_id inv =? id) eqn:E; [|done].
    apply Nat.eqb_eq in E as <-.
    destruct (waiting (_queue s)) as [|next w] eqn:Hw.
    + pose proof (last_task_finishing s inv _ Hs He Hw) as H.
      unfold finishes_of, submits_of in *.
      destruct o; events_cases; repeat split; try done; intros _;
        rewrite !omap_app; cbn; rewrite ?app_nil_r; exact H.
    + destruct o; events_cases; done.
Qed.

(** ** The provider calls *)

(** X9.  A provider operation is called at one moment only: right when the
    queue starts a task.  So a task calls the provider at most once, an
    invocation that has to wait calls nothing, and nothing is called again
    after a failure. *)
Theorem provider_called_when_a_task_starts (b : Backend) (l : list stimulus) :
  wherever
    (fun x before =>
       match x with
       | Call _ => exists id, last before = Some (Start id)
       | _ => True
       end)
    (trace (run _config (init b) l)).
Proof.
  apply wherever_run. intros s x _.
  step_cases s x; repeat split; auto; eexists; apply last_snoc.
Qed.

Lemma body_outstanding inv (s : AsyncCart) :
  concurrency (_queue s) = 1 ->
  executing (_queue s) = [] ->
  outstanding (body _config (inv_operation inv) inv s) =
  length (calls_of (tail (start_events inv (_cart s) (invocations s) : list observation))).
Proof.
  intros Hc He. unfold start_events, outstanding. cbn [tail].
  destruct (first_request (inv_operation inv) (_cart s)) as [r|] eqn:Hr.
  - rewrite (body_first_request _config _ _ _ r Hr).
    unfold call_provider. cbn.
    destruct (perform _config r (backend s)) as [o b']. cbn. rewrite He. reflexivity.
  - destruct (inv_operation inv) as [id|input|m]; try done.
    cbn in Hr. destruct (_cart s) eqn:Hcart; [done|].
    unfold body. rewrite Hcart. unfold create_invocation.
    rewrite enqueue_form.
    + cbn. rewrite He. reflexivity.
    + apply (has_room_one _ (inv, AtCreate m (invocations s))); cbn; [done|].
      rewrite He. reflexivity.
Qed.

Lemma step_outstanding (s : AsyncCart) (x : stimulus) :
  consistent s ->
  outstanding (step _config s x) + length (finishes_of (step_events _config s x)) =
  outstanding s + length (calls_of (step_events _config s x)).
Proof.
  intros Hs. destruct x as [op|id]; cbn [step step_events].
  - rewrite invoke_runCartOperation. unfold invoke_events.
    destruct (executing (_queue s)) as [|e l] eqn:He.
    + rewrite runCartOperation_from_idle by done. cbn zeta.
      fold (invocation_of _config op s).
      change op with (inv_operation (invocation_of _config op s)) at 1.
      rewrite body_outstanding by (cbn; solve [apply Hs|exact He]).
      unfold outstanding. rewrite He. unfold start_events. cbn.
      destruct (first_request op (_cart s)); reflexivity.
    + destruct Hs as (Hc & k & b & Hs & Hle & Hw & Hx).
      rewrite He in Hx. destruct e as [i p], l; [|done].
      unfold runCartOperation. rewrite enqueue_form
        by (apply (has_room_one _ (i, p)); done).
      unfold outstanding. cbn. rewrite He. lia.
  - unfold settle_events.
    destruct (executing (_queue s)) as [|[inv [o|m i]] [|]] eqn:He;
      try (rewrite settle_elsewhere; [cbn; lia|exact Hs|rewrite He; done]).
    destruct (inv_id inv =? id) eqn:E.
    + apply Nat.eqb_eq in E as <-.
      rewrite (settle_running _config inv o) by done.
      unfold outstanding at 1.
      destruct (resumed_fields _config inv o (queue_next _config (finished inv o s)))
        as (_ & -> & _).
      fold (outstanding (queue_next _config (finished inv o s))).
      unfold outstanding at 2. rewrite He. cbn [at_provider].
      unfold next_events, resumed_events.
      destruct (waiting (_queue s)) as [|next w] eqn:Hw.
      * rewrite drained by (cbn; done).
        unfold outstanding.
        destruct (on_idle_fields _config (finished inv o s))
          as (_ & _ & _ & -> & _).
        unfold idle_events. destruct o; cbn; events_cases; reflexivity.
      * unfold queue_next.
        rewrite has_room_none by (cbn; solve [apply Hs|reflexivity]).
        replace (waiting (_queue (finished inv o s))) with (next :: w)
          by (cbn; congruence).
        match goal with |- context [body _ _ next ?s0] =>
          rewrite (body_outstanding next s0)
            by (cbn; solve [apply Hs|reflexivity]) end.
        cbn [_cart invocations observe set_queue finished].
        unfold start_events.
        destruct o; cbn; events_cases; reflexivity.
    + apply Nat.eqb_neq in E.
      rewrite settle_elsewhere; [cbn; lia|exact Hs|].
      rewrite He. intros ? ? [= <- _]. exact E.
Qed.

(** X10.  At most one provider promise is outstanding at any time: in
    every state the class can reach, the provider operations called are
    those of the tasks that have finished and, when the executing task
    awaits the provider, one more. *)
Theorem at_most_one_provider_call_outstanding (b : Backend) (l : list stimulus) :
  let s := run _config (init b) l in
  length (calls_of (trace s)) = length (finishes_of (trace s)) + outstanding s /\
  outstanding s <= 1.
Proof.
  intros s. split.
  - unfold s.
    apply (reachable_ind (fun s =>
      length (calls_of (trace s)) = length (finishes_of (trace s)) + outstanding s)).
    + reflexivity.
    + intros s0 x Hs IH. pose proof (step_outstanding s0 x Hs) as H.
      rewrite step_traced by exact Hs.
      unfold calls_of, finishes_of in *. rewrite !omap_app, !length_app. lia.
  - destruct (reachable_consistent _config b l) as (_ & k & bz & _ & _ & _ & Hx).
    fold s in Hx. unfold outstanding.
    destruct (executing (_queue s)) as [|[inv [o|m i]] [|]]; cbn; done || lia.
Qed.

(** ** Operations awaited one at a time *)

Lemma invoke_from_idle_backend (op : operation) (s : AsyncCart) r o b' :
  consistent s ->
  executing (_queue s) = [] ->
  first_request op (_cart s) = Some r ->
  perform _config r (backend s) = (o, b') ->
  backend (step _config s (Invoke op)) = b'.
Proof.
  intros Hs He Hr Hp. cbn [step].
  rewrite invoke_runCartOperation, runCartOperation_from_idle by done.
  cbn zeta. fold (invocation_of _config op s).
  rewrite (body_first_request _config _ _ _ r) by exact Hr.
  rewrite (call_provider_form _config _ _ _ o b') by exact Hp.
  reflexivity.
Qed.

(** An operation invoked while nothing executes, whose task calls the
    provider at once, and whose provider promise settles before anything
    else is invoked. *)
Lemma awaited_alone (op : operation) (s : AsyncCart) r o b' :
  consistent s ->
  executing (_queue s) = [] ->
  first_request op (_cart s) = Some r ->
  perform _config r (backend s) = (o, b') ->
  let s' := run _config s [Invoke op; Settle (invocations s)] in
  let v := match o with Resolves c => Some c | Rejects _ => _cart s end in
  consistent s' /\
  executing (_queue s') = [] /\
  invocations s' = S (invocations s) /\
  backend s' = b' /\
  _cart s' = v /\
  _status s' = READY /\
  calls_of (trace s') = calls_of (trace s) ++ [r] /\
  returns_of (trace s') = returns_of (trace s) ++ [(invocations s, v)] /\
  errors_of (trace s') =
    errors_of (trace s) ++ match o with Resolves _ => [] | Rejects e => [e] end.
Proof.
  intros Hs He Hr Hp s' v.
  pose proof (invoke_from_idle _config _ s _ _ _ Hs He Hr Hp)
    as (_ & Hc1 & _ & Hn1 & _ & _ & Ht).
  pose proof (invoke_from_idle_backend _ s _ _ _ Hs He Hr Hp) as Hb1.
  pose proof (settle_from_idle _config _ s _ _ _ Hs He Hr Hp) as Hst.
  cbn zeta in Hc1, Hn1, Ht, Hst.
  assert (consistent s') as Hs' by (apply run_consistent, Hs).
  unfold s' in *. cbn [run fold_left] in *. rewrite Hst in *. clear s' Hst.
  set (inv := invocation_of _config op s) in *.
  set (s1 := step _config s (Invoke op)) in *.
  set (fin := finished inv o s1) in *.
  destruct (resumed_fields _config inv o (on_idle _config fin)) as (Hr1 & Hr2 & Hr3 & Hr4).
  destruct (resumed_snapshot _config inv o (on_idle _config fin)) as (Hr5 & _).
  destruct (on_idle_fields _config fin) as (_ & Hf2 & _ & Hf4 & Hf5 & Hf6).
  destruct (quiet_on_idle _config fin) as (_ & _ & _ & d & Hd & Hde & Hdr).
  assert (trace fin = trace s ++
            [Dispatch (CartStatusChangeEvent UPDATING); Submit (invocations s);
             Start (invocations s); Call r; Finish (invocations s) o]) as Hfin
    by (unfold fin, finished; cbn [trace observe set_queue]; rewrite Ht, <- app_assoc;
        reflexivity).
  split; [exact Hs'|].
  split; [rewrite Hr2, Hf4; reflexivity|].
  split; [rewrite Hr4, Hf6; exact Hn1|].
  split; [rewrite Hr3, Hf5; exact Hb1|].
  split; [rewrite Hr5; unfold v, snapshot_after; destruct o;
            [reflexivity|rewrite Hf2; exact Hc1]|].
  split; [exact Hr1|].
  split; [|split].
  - rewrite resumed_trace. unfold calls_of at 1. rewrite omap_app.
    fold (calls_of (trace (on_idle _config fin))).
    rewrite on_idle_calls, Hfin.
    unfold calls_of. rewrite !omap_app. destruct o; cbn; rewrite app_nil_r; reflexivity.
  - rewrite resumed_trace, Hd, Hfin.
    unfold returns_of in *. rewrite !omap_app, Hdr.
    unfold v. destruct o; cbn; rewrite ?app_nil_r; reflexivity.
  - rewrite resumed_trace, Hd, Hfin.
    unfold errors_of in *. rewrite !omap_app, Hde.
    destruct o; cbn; rewrite ?app_nil_r; reflexivity.
Qed.



Lemma one_after_the_other_run (ops : list (awaited BT LT)) :
  forall (s : AsyncCart) rs vs c bb,
    consistent s ->
    executing (_queue s) = [] ->
    directly _config (map operation_of ops) (_cart s) (backend s) = Some (rs, vs, c, bb) ->
    let s' := run _config s (one_after_the_other ops (invocations s)) in
    consistent s' /\
    executing (_queue s') = [] /\
    invocations s' = invocations s + length ops /\
    backend s' = bb /\
    _cart s' = c /\
    calls_of (trace s') = calls_of (trace s) ++ rs /\
    returns_of (trace s') =
      returns_of (trace s) ++ zip (seq (invocations s) (length ops)) vs.
Proof.
  induction ops as [|a ops IH]; intros s rs vs c bb Hs He Hd.
  - cbn in Hd. injection Hd as <- <- <- <-. cbn.
    rewrite !app_nil_r. split; [exact Hs|]. repeat split; done || lia.
  - cbn [directly map] in Hd.
    destruct (first_request (operation_of a) (_cart s)) as [r|] eqn:Hr; [|done].
    destruct (perform _config r (backend s)) as [o b'] eqn:Hp.
    destruct (directly _config (map operation_of ops) _ b')
      as [[[[rs' vs'] c'] bb']|] eqn:Hd'; [|done].
    injection Hd as <- <- <- <-.
    destruct (awaited_alone (operation_of a) s r o b' Hs He Hr Hp)
      as (H1 & H2 & H3 & H4 & H5 & _ & H7 & H8 & _).
    cbn zeta in *.
    set (s2 := run _config s [Invoke (operation_of a); Settle (invocations s)]) in *.
    change (run _config s (one_after_the_other (a :: ops) (invocations s)))
      with (run _config s2 (one_after_the_other ops (S (invocations s)))).
    rewrite <- H3.
    rewrite <- H5, <- H4 in Hd'.
    destruct (IH s2 rs' vs' c' bb' H1 H2 Hd') as (I1 & I2 & I3 & I4 & I5 & I6 & I7).
    cbn zeta in *.
    split; [exact I1|]. repeat split; try done.
    + rewrite I3, H3. cbn. lia.
    + rewrite I6, H7, <- app_assoc. reflexivity.
    + rewrite I7, H8, H3, <- app_assoc. reflexivity.
Qed.


(** ** What the status tells *)

Lemma executing_invoked (s : AsyncCart) :
  consistent s -> executing (_queue s) <> [] -> 0 < invocations s.
Proof.
  intros (Hc & k & bz & Hser & Hle & Hw & Hx) He.
  destruct (executing (_queue s)) as [|[inv p] [|]]; [done| |done].
  destruct Hx as [_ ->]. lia.
Qed.


(** * Settlements *)

(** The settlement of the executing task, in full: the task leaves the
    queue, the queue moves on, and the invocation that awaited the task
    goes on. *)
Lemma settle_effect inv o (s : AsyncCart) :
  consistent s ->
  executing (_queue s) = [(inv, AtProvider o)] ->
  let s' := step _config s (Settle (inv_id inv)) in
  trace s' =
    trace s ++ Finish (inv_id inv) o :: next_events _config s ++ resumed_events inv o /\
  _status s' = READY /\
  _cart s' = snapshot_after inv o s /\
  _previousCartRevisionId s' = previous_after _config inv o s /\
  _queue s' = _queue (queue_next _config (finished inv o s)).
Proof.
  intros Hs He s'. unfold s'. cbn [step].
  rewrite (settle_running _config inv o) by done.
  destruct (resumed_fields _config inv o (queue_next _config (finished inv o s)))
    as (Hst & Hq & _).
  destruct (resumed_snapshot _config inv o (queue_next _config (finished inv o s)))
    as (Hc & Hp).
  destruct (quiet_queue_next _config (finished inv o s)) as (Hc' & Hp' & _).
  split; [rewrite resumed_trace, finished_next_trace, <- app_assoc by exact Hs;
          reflexivity|].
  split; [exact Hst|].
  split; [rewrite Hc; unfold snapshot_after; rewrite Hc'; reflexivity|].
  split; [rewrite Hp; unfold previous_after; rewrite Hp'; reflexivity|].
  exact Hq.
Qed.

(** When the queue moves on, no task finishes, no error is reported and no
    invocation returns. *)
Lemma next_events_quiet (s : AsyncCart) :
  finishes_of (next_events _config s) = [] /\
  errors_of (next_events _config s) = [] /\
  returns_of (next_events _config s) = [].
Proof.
  unfold next_events, start_events, idle_events.
  destruct (waiting (_queue s)); events_cases; done.
Qed.

(** ** While the executing task stays where it is *)

Lemma announcements_only (d : list observation) :
  Forall announcement d ->
  starts_of d = [] /\ calls_of d = [] /\ finishes_of d = [] /\
  errors_of d = [] /\ returns_of d = [].
Proof.
  induction 1 as [|o d Ho _ (H0 & H1 & H2 & H3 & H4)]; [done|].
  destruct o as [[name c|[| |]]| | | | | |]; cbn in *; done.
Qed.

Lemma busy_step (s : AsyncCart) (x : stimulus) inv p :
  consistent s ->
  executing (_queue s) = [(inv, p)] ->
  (forall o, p = AtProvider o -> x <> Settle (inv_id inv)) ->
  let s' := step _config s x in
  executing (_queue s') = [(inv, p)] /\
  (_status s = UPDATING -> _status s' = UPDATING) /\
  _cart s' = _cart s /\
  exists d, trace s' = trace s ++ d /\ Forall announcement d.
Proof.
  intros Hs He Hx s'. unfold s'. destruct x as [op|id]; cbn [step].
  - rewrite invoke_runCartOperation. unfold runCartOperation.
    rewrite enqueue_form
      by (apply (has_room_one _ (inv, p)); [apply Hs|exact He]).
    cbn. repeat split; try done.
    eexists. rewrite <- app_assoc. split; [reflexivity|].
    repeat constructor.
  - rewrite settle_elsewhere; [|exact Hs|].
    + repeat split; try done. exists []. rewrite app_nil_r. done.
    + rewrite He. intros inv' o' [= <- ->] Hid.
      apply (Hx o' eq_refl). rewrite Hid. reflexivity.
Qed.

Lemma busy_run (s : AsyncCart) (l : list stimulus) inv p :
  consistent s ->
  executing (_queue s) = [(inv, p)] ->
  Forall (fun x => forall o, p = AtProvider o -> x <> Settle (inv_id inv)) l ->
  let s' := run _config s l in
  executing (_queue s') = [(inv, p)] /\
  (_status s = UPDATING -> _status s' = UPDATING) /\
  _cart s' = _cart s /\
  exists d, trace s' = trace s ++ d /\ Forall announcement d.
Proof.
  intros Hs He Hl. revert s Hs He.
  induction Hl as [|x l Hx _ IH]; intros s Hs He; cbn.
  - repeat split; try done. exists []. rewrite app_nil_r. done.
  - destruct (busy_step s x inv p Hs He Hx) as (He1 & Hst1 & Hc1 & d1 & Hd1 & Hf1).
    destruct (IH (step _config s x) (step_consistent _ _ _ Hs) He1)
      as (He2 & Hst2 & Hc2 & d2 & Hd2 & Hf2).
    change (fold_left (step _config) l (step _config s x))
      with (run _config (step _config s x) l) in *.
    split; [exact He2|]. split; [auto|]. split; [congruence|].
    exists (d1 ++ d2). rewrite Hd2, Hd1, app_assoc.
    split; [reflexivity|]. apply Forall_app. done.
Qed.

(** ** Failures of provider operations *)

(** C3.  In every state the class can reach, when the provider promise of
    the executing task rejects with [e], this is what happens, in this
    order: the task leaves the queue; the queue moves on (it starts the
    next task or, when none waits, the idle handler runs), which reports
    no error and returns no invocation; then [runCartOperation] goes on
    from [await queuePromise]: [onError] is called with [e], once, the
    status is set to [READY] and a status change event carrying [READY] is
    dispatched, and the invocation returns the snapshot it read when it
    was invoked (its promise is fulfilled; nothing is thrown to the
    caller).  The snapshot and the stored revision are left as they
    were. *)
Theorem C3_provider_failure_goes_to_onError
    (b : Backend) (l : list stimulus) inv (e : thrown) :
  let s := run _config (init b) l in
  executing (_queue s) = [(inv, AtProvider (Rejects e))] ->
  let s' := step _config s (Settle (inv_id inv)) in
  trace s' =
    trace s ++
      Finish (inv_id inv) (Rejects e) :: next_events _config s ++
      [OnError e; Dispatch (CartStatusChangeEvent READY);
       Return (inv_id inv) (inv_result inv)] /\
  errors_of (next_events _config s) = [] /\
  returns_of (next_events _config s) = [] /\
  errors_of (trace s') = errors_of (trace s) ++ [e] /\
  returns_of (trace s') = returns_of (trace s) ++ [(inv_id inv, inv_result inv)] /\
  _cart s' = _cart s /\
  _previousCartRevisionId s' = _previousCartRevisionId s /\
  _status s' = READY.
Proof.
  intros s He s'.
  destruct (settle_effect inv (Rejects e) s (reachable_consistent _config b l) He)
    as (Ht & Hst & Hc & Hp & _).
  fold s' in Ht, Hst, Hc, Hp.
  destruct (next_events_quiet s) as (_ & Hne & Hnr).
  split; [exact Ht|]. split; [exact Hne|]. split; [exact Hnr|].
  split; [|split].
  - rewrite Ht. unfold errors_of in *.
    rewrite omap_app. cbn [omap list_omap]. rewrite omap_app, Hne. reflexivity.
  - rewrite Ht. unfold returns_of in *.
    rewrite omap_app. cbn [omap list_omap]. rewrite omap_app, Hnr. reflexivity.
  - done.
Qed.

(** ** The idle handler *)

(** C9.  In every state the class can reach, when the provider promise of
    the executing task settles and no task waits, the queue drains and the
    idle handler runs, right after the task has finished and before
    [runCartOperation] goes on: an "idle" event is dispatched that carries
    the snapshot current at that moment (the result of the task that has
    just settled is assigned afterwards), whether there is a snapshot or
    not; a "change" event carrying that snapshot follows when there is a
    snapshot and its revision differs from the stored one, and none
    follows when there is no snapshot.  The handler itself, in any state
    whatever (so with any stored previous revision identifier), dispatches
    only the "idle" event when there is no snapshot. *)
Theorem C9_idle_event_carries_the_snapshot
    (b : Backend) (l : list stimulus) inv (o : settlement) :
  let s := run _config (init b) l in
  executing (_queue s) = [(inv, AtProvider o)] ->
  waiting (_queue s) = [] ->
  let s' := step _config s (Settle (inv_id inv)) in
  executing (_queue s') = [] /\ waiting (_queue s') = [] /\
  trace s' =
    trace s ++
      Finish (inv_id inv) o :: Dispatch (CartEvent "idle" (_cart s)) ::
      match _cart s with
      | Some c =>
          if differs (queries_cartRevisionId _config c) (_previousCartRevisionId s)
          then [Dispatch (CartEvent "change" (Some c))]
          else []
      | None => []
      end ++ resumed_events inv o /\
  (_cart s = None ->
   trace s' =
     trace s ++
       Finish (inv_id inv) o :: Dispatch (CartEvent "idle" None) ::
       resumed_events inv o) /\
  (forall z : AsyncCart,
     _cart z = None ->
     trace (on_idle _config z) = trace z ++ [Dispatch (CartEvent "idle" None)]).
Proof.
  intros s He Hw s'.
  destruct (settle_effect inv o s (reachable_consistent _config b l) He)
    as (Ht & _ & _ & _ & Hq).
  fold s' in Ht, Hq. unfold next_events, idle_events in Ht. rewrite Hw in Ht.
  rewrite drained in Hq by (cbn; done).
  destruct (on_idle_fields _config (finished inv o s)) as (_ & _ & _ & Hq' & _).
  rewrite Hq' in Hq.
  split; [rewrite Hq; reflexivity|].
  split; [rewrite Hq; exact Hw|].
  split; [exact Ht|].
  split.
  - intros Hc. rewrite Ht, Hc. reflexivity.
  - intros z Hz. rewrite on_idle_trace, Hz. reflexivity.
Qed.

(** ** A change event for an unchanged revision *)

(** C2, on the code.  In every state the class can reach in which nothing
    executes and the revision of the snapshot differs from the stored
    previous revision, invoke an operation whose task calls the provider at
    once, and let the provider promise resolve with a cart of the same
    revision as the snapshot.  The batch is this one operation; it starts
    and ends at the same revision.  When its task settles the queue drains
    and the idle handler runs, before [runCartOperation] goes on: it
    dispatches "idle" and then "change", both carrying the snapshot from
    before the operation.  The stored previous revision is left as it was,
    so that the next batch of this kind dispatches "change" again. *)
Theorem C2_change_dispatched_for_unchanged_revision
    (b : Backend) (l : list stimulus) (op : operation) (r : request)
    (c c' : CT) (b' : Backend) :
  let s := run _config (init b) l in
  executing (_queue s) = [] ->
  _cart s = Some c ->
  differs (queries_cartRevisionId _config c) (_previousCartRevisionId s) = true ->
  first_request op (_cart s) = Some r ->
  perform _config r (backend s) = (Resolves c', b') ->
  queries_cartRevisionId _config c' = queries_cartRevisionId _config c ->
  let s' := run _config s [Invoke op; Settle (invocations s)] in
  executing (_queue s') = [] /\ waiting (_queue s') = [] /\
  _cart s' = Some c' /\
  _previousCartRevisionId s' = _previousCartRevisionId s /\
  trace s' =
  trace s ++
    [Dispatch (CartStatusChangeEvent UPDATING); Submit (invocations s);
     Start (invocations s); Call r;
     Finish (invocations s) (Resolves c');
     Dispatch (CartEvent "idle" (Some c));
     Dispatch (CartEvent "change" (Some c));
     Dispatch (CartStatusChangeEvent READY); Return (invocations s) (Some c')].
Proof.
  intros s He Hc Hd Hr Hp Hrev s'.
  assert (consistent s) as Hs by apply reachable_consistent.
  pose proof (invoke_from_idle _config op s r _ b' Hs He Hr Hp)
    as (_ & Hc1 & Hp1 & _ & Hw1 & He1 & Ht1).
  cbn zeta in Hc1, Hp1, Hw1, He1, Ht1.
  set (s1 := step _config s (Invoke op)) in *.
  destruct (settle_effect (invocation_of _config op s) (Resolves c') s1
              (step_consistent _ _ _ Hs) He1) as (Ht & _ & Hc2 & Hp2 & Hq).
  change (step _config s1 (Settle (inv_id (invocation_of _config op s)))) with s' in *.
  rewrite drained in Hq by (cbn; done).
  destruct (on_idle_fields _config
              (finished (invocation_of _config op s) (Resolves c') s1))
    as (_ & _ & _ & Hq' & _).
  rewrite Hq' in Hq.
  split; [rewrite Hq; reflexivity|].
  split; [rewrite Hq; exact Hw1|].
  split; [exact Hc2|].
  split.
  - rewrite Hp2. unfold previous_after. cbn [inv_currentRevisionId invocation_of].
    rewrite Hc, Hrev, Hp1. cbn [differs].
    rewrite String.eqb_refl. reflexivity.
  - rewrite Ht, Ht1. unfold next_events, idle_events.
    rewrite Hw1, Hc1, Hp1, Hc, Hd, <- app_assoc. reflexivity.
Qed.

(** ** The value a failed invocation returns *)

(** The result of a failed invocation is the snapshot of the moment it
    was made. *)
Lemma failed_invocation_returns_what_it_read
    (b : Backend) (l l' : list stimulus) (op : operation) inv (e : thrown) :
  let s := run _config (init b) l in
  let s2 := run _config (step _config s (Invoke op)) l' in
  executing (_queue s2) = [(inv, AtProvider (Rejects e))] ->
  inv_id inv = invocations s ->
  let s3 := step _config s2 (Settle (invocations s)) in
  trace s3 =
    trace s2 ++
      Finish (invocations s) (Rejects e) :: next_events _config s2 ++
      [OnError e; Dispatch (CartStatusChangeEvent READY);
       Return (invocations s) (_cart s)] /\
  returns_of (next_events _config s2) = [] /\
  returns_of (trace s3) = returns_of (trace s2) ++ [(invocations s, _cart s)].
Proof.
  intros s s2 He Hid s3.
  assert (consistent s) as Hs by apply reachable_consistent.
  assert (consistent (step _config s (Invoke op))) as Hs1 by (apply step_consistent; exact Hs).
  assert (consistent s2) as Hs2 by (apply run_consistent; exact Hs1).
  destruct (run_remembers _config (step _config s (Invoke op)) l'
              (invocation_of _config op s) Hs1) as (_ & Hrem).
  { cbn [step]. rewrite invoke_runCartOperation.
    unfold runCartOperation, runCartOperation_with. cbn [fst invocation_of inv_id].
    match goal with |- _ < invocations (queue_add ?bd ?i ?st) =>
      pose proof (quiet_queue_add bd i st (fun z => quiet_body _config op i z))
        as (_ & _ & Hn & _) end.
    exact Hn. }
  { intros i Hi Hidi. destruct (step_pending _config s (Invoke op) Hs i Hi) as [H|[H|H]].
    - apply (consistent_ids s Hs) in H. cbn in Hidi. lia.
    - exact H.
    - cbn in Hidi. lia. }
  fold s2 in Hrem.
  assert (inv = invocation_of _config op s) as Hinv.
  { apply Hrem; [|exact Hid]. unfold pending. rewrite He. cbn. auto. }
  destruct (settle_effect inv (Rejects e) s2 Hs2 He) as (Ht & _).
  unfold resumed_events in Ht. rewrite Hid in Ht. fold s3 in Ht.
  replace (inv_result inv) with (_cart s) in Ht by (rewrite Hinv; reflexivity).
  destruct (next_events_quiet s2) as (_ & _ & Hnr).
  split; [exact Ht|]. split; [exact Hnr|].
  rewrite Ht. unfold returns_of in *.
  rewrite omap_app. cbn [omap list_omap]. rewrite omap_app, Hnr. reflexivity.
Qed.

(** ** A task whose provider promise does not settle *)

Lemma busy_trace (s s' : AsyncCart) (d : list observation) :
  trace s' = trace s ++ d ->
  Forall announcement d ->
  starts_of (trace s') = starts_of (trace s) /\
  calls_of (trace s') = calls_of (trace s) /\
  finishes_of (trace s') = finishes_of (trace s) /\
  errors_of (trace s') = errors_of (trace s) /\
  returns_of (trace s') = returns_of (trace s).
Proof.
  intros -> Hd. destruct (announcements_only d Hd) as (H0 & H1 & H2 & H3 & H4).
  unfold starts_of, calls_of, finishes_of, errors_of, returns_of in *.
  rewrite !omap_app, H0, H1, H2, H3, H4, !app_nil_r. done.
Qed.

(** C7, on the code.  The queue is constructed with [concurrency] alone
    (lines 53-55) and [add] is given [throwOnTimeout] without a [timeout]
    (line 86), so that the queue has no bound to enforce: it settles
    [queuePromise] when the task settles, and at no other moment.  In
    every state the class can reach in which a task is executing, let
    anything happen but the settlement of that task's provider promise
    (further invocations, settlements that are not its own): the task is
    still executing, no other task is started, and nothing is reported to
    [onError] and no invocation returns, neither the one awaiting this
    task nor any of those waiting behind it; a status of [UPDATING] stays
    [UPDATING].  No failure is surfaced for the task's handle: it hangs. *)
Theorem C7_task_that_does_not_settle_is_never_failed
    (b : Backend) (l l' : list stimulus) inv p :
  let s := run _config (init b) l in
  executing (_queue s) = [(inv, p)] ->
  Forall (fun x => x <> Settle (inv_id inv)) l' ->
  let s' := run _config s l' in
  executing (_queue s') = [(inv, p)] /\
  starts_of (trace s') = starts_of (trace s) /\
  finishes_of (trace s') = finishes_of (trace s) /\
  errors_of (trace s') = errors_of (trace s) /\
  returns_of (trace s') = returns_of (trace s) /\
  (_status s = UPDATING -> _status s' = UPDATING).
Proof.
  intros s He Hl s'.
  destruct (busy_run s l' inv p (reachable_consistent _config b l) He)
    as (He' & Hst & _ & d & Hd & Hf).
  { eapply Forall_impl; [exact Hl|]. cbn. auto. }
  fold s' in He', Hst, Hd.
  destruct (busy_trace s s' d Hd Hf) as (H0 & _ & H2 & H3 & H4).
  done.
Qed.

(** ** A closure suspended at the implicit [create] *)

(** C6, on the code.  In every state the class can reach in which the
    closure of a mutation method is suspended at [await this.create({})]
    (lines 116, 124, 132, 140, 148, 156), let anything follow: further
    invocations, settlements.  The closure is still suspended there: the
    task of that [create] waits in the queue behind the closure that
    awaits it, so that [create] never gets to yield anything, a snapshot or
    none.  The guard after it (lines 117, 125, 133, 141, 149, 157) is
    never evaluated: no provider operation is called, no task finishes,
    nothing is reported to [onError] and no invocation returns, so the
    caller of the mutation method is signaled nothing. *)
Theorem C6_closure_awaiting_create_is_never_resumed
    (b : Backend) (l l' : list stimulus) outer (m : mutation) (i : nat) :
  let s := run _config (init b) l in
  executing (_queue s) = [(outer, AtCreate m i)] ->
  let s' := run _config s l' in
  executing (_queue s') = [(outer, AtCreate m i)] /\
  calls_of (trace s') = calls_of (trace s) /\
  finishes_of (trace s') = finishes_of (trace s) /\
  errors_of (trace s') = errors_of (trace s) /\
  returns_of (trace s') = returns_of (trace s) /\
  _cart s' = _cart s.
Proof.
  intros s He s'.
  destruct (busy_run s l' outer (AtCreate m i) (reachable_consistent _config b l) He)
    as (He' & _ & Hc & d & Hd & Hf).
  { apply Forall_forall. intros x _ o [=]. }
  fold s' in He', Hc, Hd.
  destruct (busy_trace s s' d Hd Hf) as (_ & H1 & H2 & H3 & H4).
  done.
Qed.

(** ** The status *)


(** ** [fetch] *)

Lemma started_fetch inv o next w id o' b' (s : AsyncCart) :
  consistent s ->
  executing (_queue s) = [(inv, AtProvider o)] ->
  waiting (_queue s) = next :: w ->
  inv_operation next = FetchById id ->
  operations_fetch _config id (backend s) = (o', b') ->
  _queue (queue_next _config (finished inv o s)) =
  {| concurrency := concurrency (_queue s); waiting := w;
     executing := [(next, AtProvider o')] |}.
Proof.
  intros Hs He Hw Hop Hp. unfold queue_next.
  rewrite has_room_none by (cbn; solve [apply Hs|reflexivity]).
  cbn [finished observe set_queue set_executing _queue waiting]. rewrite Hw, Hop.
  cbn [body]. rewrite (call_provider_form _config _ _ _ o' b') by exact Hp.
  reflexivity.
Qed.

(** C8, as the class has it.  In every state the class can reach, the
    promise returned by [fetch(id)] is fulfilled with [undefined]: it
    carries no snapshot and does not wait for the operation.  The
    operation goes through [runCartOperation] and the queue like every
    other.  Invoked while nothing executes, it announces [UPDATING],
    submits its task, and the task is started and calls the provider's
    [fetch] with [id].  Invoked while a task executes, it announces
    [UPDATING], submits its task and waits its turn; no provider operation
    is called.  When the queue starts a waiting [fetch], the task calls
    the provider's [fetch] with [id].  When the provider promise of a task
    settles, that of a [fetch] like any other: the queue moves on (it
    starts the next task or dispatches "idle" and, on its condition,
    "change", on the snapshot as it still is); then, if the promise
    resolved, its cart is assigned as the snapshot and the stored previous
    revision becomes the revision read at the invocation when the two
    differ; if it rejected, the error is reported and the snapshot and the
    stored revision stay; either way [READY] is announced.  End to end for
    a [fetch] invoked while nothing executes: the whole trace. *)
Theorem C8_fetch_returns_nothing_and_is_serialized
    (b : Backend) (l : list stimulus) (id : string) :
  let s := run _config (init b) l in
  let n := invocations s in
  let made := invocation_of _config (FetchById id) s in
  let s1 := fst (fetch _config id s) in
  snd (fetch _config id s) = Undefined /\
  (executing (_queue s) = [] ->
   forall o b',
     operations_fetch _config id (backend s) = (o, b') ->
     trace s1 =
       trace s ++
         [Dispatch (CartStatusChangeEvent UPDATING); Submit n; Start n;
          Call (Fetch id)] /\
     executing (_queue s1) = [(made, AtProvider o)] /\
     _status s1 = UPDATING /\
     _cart s1 = _cart s) /\
  (executing (_queue s) <> [] ->
   trace s1 = trace s ++ [Dispatch (CartStatusChangeEvent UPDATING); Submit n] /\
   executing (_queue s1) = executing (_queue s) /\
   waiting (_queue s1) = waiting (_queue s) ++ [made] /\
   _status s1 = UPDATING /\
   _cart s1 = _cart s) /\
  (forall inv o next w o' b',
     executing (_queue s) = [(inv, AtProvider o)] ->
     waiting (_queue s) = next :: w ->
     inv_operation next = FetchById id ->
     operations_fetch _config id (backend s) = (o', b') ->
     let s' := step _config s (Settle (inv_id inv)) in
     trace s' =
       trace s ++
         [Finish (inv_id inv) o; Start (inv_id next); Call (Fetch id)] ++
         resumed_events inv o /\
     executing (_queue s') = [(next, AtProvider o')] /\
     waiting (_queue s') = w) /\
  (forall inv o,
     executing (_queue s) = [(inv, AtProvider o)] ->
     let s' := step _config s (Settle (inv_id inv)) in
     trace s' =
       trace s ++ Finish (inv_id inv) o :: next_events _config s ++ resumed_events inv o /\
     _cart s' = match o with Resolves c => Some c | Rejects _ => _cart s end /\
     _previousCartRevisionId s' =
       match o with
       | Resolves c =>
           if differs (queries_cartRevisionId _config c) (inv_currentRevisionId inv)
           then inv_currentRevisionId inv
           else _previousCartRevisionId s
       | Rejects _ => _previousCartRevisionId s
       end /\
     _status s' = READY) /\
  (executing (_queue s) = [] ->
   forall o b',
     operations_fetch _config id (backend s) = (o, b') ->
     let s2 := step _config s1 (Settle n) in
     trace s2 =
       trace s ++
         [Dispatch (CartStatusChangeEvent UPDATING); Submit n; Start n;
          Call (Fetch id); Finish n o; Dispatch (CartEvent "idle" (_cart s))] ++
         match _cart s with
         | Some c0 =>
             if differs (queries_cartRevisionId _config c0) (_previousCartRevisionId s)
             then [Dispatch (CartEvent "change" (Some c0))]
             else []
         | None => []
         end ++ resumed_events made o /\
     _cart s2 = match o with Resolves c => Some c | Rejects _ => _cart s end /\
     _previousCartRevisionId s2 =
       match o with
       | Resolves c =>
           if differs (queries_cartRevisionId _config c) (inv_currentRevisionId made)
           then inv_currentRevisionId made
           else _previousCartRevisionId s
       | Rejects _ => _previousCartRevisionId s
       end /\
     _status s2 = READY /\
     executing (_queue s2) = []).
Proof.
  intros s n made s1.
  assert (consistent s) as Hs by apply reachable_consistent.
  assert (s1 = step _config s (Invoke (FetchById id))) as Hs1 by reflexivity.
  split.
  { unfold fetch. destruct (runCartOperation _config (FetchById id) s). reflexivity. }
  split.
  { intros He o b' Hp.
    pose proof (invoke_from_idle _config (FetchById id) s (Fetch id) o b' Hs He eq_refl Hp)
      as (Hst & Hc1 & _ & _ & _ & He1 & Ht).
    cbn zeta in Hst, Hc1, He1, Ht. rewrite <- Hs1 in Hst, Hc1, He1, Ht. done. }
  split.
  { intros He. rewrite Hs1. cbn [step]. rewrite invoke_runCartOperation.
    destruct Hs as (Hc & k & bz & Hser & Hle & Hw & Hx).
    destruct (executing (_queue s)) as [|[i p] [|]] eqn:He'; try done.
    unfold runCartOperation. rewrite enqueue_form
      by (apply (has_room_one _ (i, p)); done).
    cbn. rewrite He', <- app_assoc. done. }
  split.
  { intros inv o next w o' b' He Hw Hop Hp s'.
    destruct (settle_effect inv o s Hs He) as (Ht & _ & _ & _ & Hq).
    fold s' in Ht, Hq.
    rewrite (started_fetch inv o next w id o' b' s Hs He Hw Hop Hp) in Hq.
    split; [|rewrite Hq; done].
    rewrite Ht. unfold next_events, start_events. rewrite Hw, Hop. reflexivity. }
  split.
  { intros inv o He s'.
    destruct (settle_effect inv o s Hs He) as (Ht & Hst & Hc & Hp & _).
    done. }
  intros He o b' Hp s2.
  pose proof (invoke_from_idle _config (FetchById id) s (Fetch id) o b' Hs He eq_refl Hp)
    as (_ & Hc1 & Hp1 & _ & Hw1 & He1 & Ht).
  cbn zeta in Hc1, Hp1, Hw1, He1, Ht. rewrite <- Hs1 in Hc1, Hp1, Hw1, He1, Ht.
  destruct (settle_effect made o s1) as (Ht2 & Hst2 & Hc2 & Hp2 & Hq2);
    [rewrite Hs1; apply step_consistent, Hs|exact He1|].
  change (step _config s1 (Settle (inv_id made))) with s2 in *.
  rewrite drained in Hq2 by (cbn; done).
  destruct (on_idle_fields _config (finished made o s1)) as (_ & _ & _ & Hq' & _).
  rewrite Hq' in Hq2.
  split.
  { rewrite Ht2, Ht. unfold next_events, idle_events. rewrite Hw1, Hc1, Hp1.
    rewrite <- app_assoc. reflexivity. }
  split; [rewrite Hc2; unfold snapshot_after; rewrite Hc1; reflexivity|].
  split; [rewrite Hp2; unfold previous_after; rewrite Hp1; reflexivity|].
  split; [exact Hst2|].
  rewrite Hq2. reflexivity.
Qed.

End Further.

(** * Runs of the shop *)

(** ** A failed invocation returns the snapshot it read *)

(** C10.  In every state the class can reach, invoke an operation and let
    anything follow; if then the provider promise of its task rejects, the
    task leaves the queue, the queue moves on (which returns no
    invocation), the error is reported and [runCartOperation] returns the
    snapshot that was current when the operation was invoked ([None] for
    no snapshot), whatever the current snapshot is by then.  The two
    differ in the shop: a [create] for ["nobody"] invoked while a first
    [create] is executing reads no snapshot; when it fails the first
    [create] has set the snapshot, and the failed invocation still returns
    none. *)
Theorem C10_failed_invocation_returns_the_snapshot_it_read :
  (forall (CT BT LT Rejection Backend : Type)
          (config : ProviderConfig CT BT LT Rejection Backend)
          (b : Backend) (l l' : list (stimulus BT LT))
          (op : operation BT LT) (inv : invocation CT BT LT)
          (e : thrown Rejection),
     let s := run config (init b) l in
     let s2 := run config (step config s (Invoke op)) l' in
     executing (_queue s2) = [(inv, AtProvider (Rejects e))] ->
     inv_id inv = invocations s ->
     let s3 := step config s2 (Settle (invocations s)) in
     trace s3 =
       trace s2 ++
         Finish (invocations s) (Rejects e) :: next_events config s2 ++
         [OnError e; Dispatch (CartStatusChangeEvent READY);
          Return (invocations s) (_cart s)] /\
     returns_of (next_events config s2) = [] /\
     returns_of (trace s3) = returns_of (trace s2) ++ [(invocations s, _cart s)]) /\
  (let s := run Shop.config Shop.fresh [Invoke (CreateWith no_input)] in
   let s2 := run Shop.config
               (step Shop.config s (Invoke (CreateWith (Shop.for_buyer "nobody"))))
               [Settle 0] in
   let s3 := step Shop.config s2 (Settle 1) in
   let made := {| Shop.id := "new"; Shop.revision := "r0"; Shop.owner := "" |} in
   _cart s = None /\
   _cart s2 = Some made /\
   returns_of (trace s3) = [(0, Some made); (1, None)] /\
   _cart s3 = Some made).
Proof.
  split.
  - intros CT BT LT Rejection Backend config b l l' op inv e s s2 He Hid.
    exact (failed_invocation_returns_what_it_read config b l l' op inv e He Hid).
  - vm_compute. repeat split.
Qed.

(** ** Operations that overlap *)


(** ** A [fetch] that assigns nothing *)

(** Against C8 as stated.  In the closed shop, [fetch("c1")] on a fresh
    class goes through the queue and calls the provider's [fetch], whose
    promise rejects: the rejection is handed to [onError] and no snapshot
    is assigned.  And in the open shop, a [fetch("c1")] invoked after
    [updateBuyer("ann")] on a fresh class waits behind a closure that is
    never resumed: whatever follows, its task is not started, the
    provider's [fetch] is not called and no snapshot is assigned. *)
Lemma C8_fetch_that_assigns_nothing_counterexample :
  (let s := run Shop.closed Shop.fresh [Invoke (FetchById "c1"); Settle 0] in
   calls_of (trace s) = [Fetch "c1"] /\
   finishes_of (trace s) = [0] /\
   errors_of (trace s) = [Rejected "closed"] /\
   executing (_queue s) = [] /\
   _cart s = None) /\
  (forall l' : list (stimulus string string),
     let s := run Shop.config Shop.fresh
                [Invoke (EnsureThen (Buyer "ann")); Invoke (FetchById "c1")] in
     let s' := run Shop.config s l' in
     map inv_operation (waiting (_queue s)) = [CreateWith no_input; FetchById "c1"] /\
     starts_of (trace s') = [0] /\
     calls_of (trace s') = [] /\
     _cart s' = None).
Proof.
  split; [vm_compute; repeat split|].
  intros l' s s'.
  split; [vm_compute; reflexivity|].
  destruct (busy_run Shop.config s l'
              {| inv_id := 0; inv_operation := EnsureThen (Buyer "ann");
                 inv_result := None; inv_currentRevisionId := None |}
              (AtCreate (Buyer "ann") 1))
    as (_ & _ & Hc & d & Hd & Hf).
  - apply (reachable_consistent Shop.config tt).
  - vm_compute. reflexivity.
  - apply Forall_forall. intros x _ o [=].
  - fold s' in Hc, Hd.
    destruct (busy_trace s s' d Hd Hf) as (H0 & H1 & _).
    rewrite H0, H1, Hc. vm_compute. repeat split.
Qed.

(** ** Instances *)

Lemma C3_rejected_create_witness :
  let inv := {| inv_id := 0; inv_operation := CreateWith (Shop.for_buyer "nobody");
                inv_result := None; inv_currentRevisionId := None |} in
  let e := Rejected "no such buyer" in
  let s := run Shop.config (init tt) [Invoke (CreateWith (Shop.for_buyer "nobody"))] in
  let s' := step Shop.config s (Settle (inv_id inv)) in
  (executing (_queue s) = [(inv, AtProvider (Rejects e))] /\
   next_events Shop.config s = [Dispatch (CartEvent "idle" None)]) /\
  trace s' =
    trace s ++
      Finish (inv_id inv) (Rejects e) :: next_events Shop.config s ++
      [OnError e; Dispatch (CartStatusChangeEvent READY);
       Return (inv_id inv) (inv_result inv)] /\
  errors_of (trace s') = errors_of (trace s) ++ [e] /\
  returns_of (trace s') = returns_of (trace s) ++ [(inv_id inv, inv_result inv)] /\
  _cart s' = _cart s /\
  _previousCartRevisionId s' = _previousCartRevisionId s /\
  _status s' = READY.
Proof.
  intros inv e s s'.
  assert (executing (_queue s) = [(inv, AtProvider (Rejects e))]) as H
    by (vm_compute; reflexivity).
  assert (next_events Shop.config s = [Dispatch (CartEvent "idle" None)]) as Hn
    by (vm_compute; reflexivity).
  destruct (C3_provider_failure_goes_to_onError Shop.config tt _ inv e H)
    as (Ht & _ & _ & He & Hr & Hc).
  exact (conj (conj H Hn) (conj Ht (conj He (conj Hr Hc)))).
Defined.

Lemma C1_updateAttributes_on_a_fresh_class_witness :
  let l' := [Settle 0; Settle 1; Invoke (CreateWith no_input); Settle 2] in
  let s := run Shop.config (init tt) [] in
  let s' := run Shop.config (fst (updateAttributes Shop.config ∅ s)) l' in
  (executing (_queue s) = [] /\ _cart s = None) /\
  calls_of (trace s') = calls_of (trace s) /\
  returns_of (trace s') = returns_of (trace s) /\
  _cart s' = None /\
  _status s' = UPDATING.
Proof.
  intros l' s s'.
  assert (executing (_queue s) = []) as He by reflexivity.
  assert (_cart s = None) as Hc by reflexivity.
  subst s'. rewrite (updateAttributes_invokes Shop.config s ∅).
  destruct (C1_mutation_without_snapshot_never_calls_the_provider
              Shop.config tt [] l' (Attributes ∅) He Hc)
    as (H1 & H2 & H3 & H4 & _).
  exact (conj (conj He Hc) (conj H1 (conj H2 (conj H3 H4)))).
Defined.

Lemma C4_second_task_starts_after_the_first_witness :
  let s := run Shop.config (init tt)
             [Invoke (CreateWith no_input); Invoke (FetchById "c1"); Settle 0] in
  let made := {| Shop.id := "new"; Shop.revision := "r0"; Shop.owner := "" |} in
  let t1 := [Dispatch (CartStatusChangeEvent UPDATING); Submit 0; Start 0;
             Call (Create no_input);
             Dispatch (CartStatusChangeEvent UPDATING); Submit 1;
             Finish 0 (Resolves made)] in
  let t2 := [Call (Fetch "c1");
             Dispatch (CartStatusChangeEvent READY); Return 0 (Some made)] in
  trace s = t1 ++ Start 1 :: t2 /\
  starts_of t1 = seq 0 1 /\
  finishes_of t1 = seq 0 1 /\
  In (Submit 1) t1.
Proof.
  intros s made t1 t2.
  assert (trace s = t1 ++ Start 1 :: t2) as Ht by (vm_compute; reflexivity).
  destruct (C4_one_task_at_a_time_in_submission_order Shop.config tt _ t1 t2 1 Ht)
    as (_ & H1 & H2 & H3 & _).
  exact (conj Ht (conj H1 (conj H2 H3))).
Defined.


Lemma C6_updateBuyer_witness :
  let outer := {| inv_id := 0; inv_operation := EnsureThen (Buyer "ann");
                  inv_result := None; inv_currentRevisionId := None |} in
  let l' := [Settle 1; Settle 0; Invoke (CreateWith no_input); Settle 2] in
  let s := run Shop.closed (init tt) [Invoke (EnsureThen (Buyer "ann"))] in
  let s' := run Shop.closed s l' in
  (executing (_queue s) = [(outer, AtCreate (Buyer "ann") 1)] /\
   map inv_operation (waiting (_queue s)) = [CreateWith no_input]) /\
  executing (_queue s') = [(outer, AtCreate (Buyer "ann") 1)] /\
  calls_of (trace s') = calls_of (trace s) /\
  finishes_of (trace s') = finishes_of (trace s) /\
  errors_of (trace s') = errors_of (trace s) /\
  returns_of (trace s') = returns_of (trace s) /\
  _cart s' = _cart s.
Proof.
  intros outer l' s s'.
  assert (executing (_queue s) = [(outer, AtCreate (Buyer "ann") 1)]) as He
    by (vm_compute; reflexivity).
  assert (map inv_operation (waiting (_queue s)) = [CreateWith no_input]) as Hw
    by (vm_compute; reflexivity).
  exact (conj (conj He Hw)
           (C6_closure_awaiting_create_is_never_resumed Shop.closed tt _ l'
              outer (Buyer "ann") 1 He)).
Defined.

Lemma C7_fetch_that_does_not_settle_witness :
  let inv := {| inv_id := 0; inv_operation := FetchById "c1";
                inv_result := None; inv_currentRevisionId := None |} in
  let p := AtProvider
             (Resolves {| Shop.id := "c1"; Shop.revision := "r0"; Shop.owner := "" |}) in
  let l' := [Invoke (CreateWith no_input); Settle 1;
             Invoke (EnsureThen (Buyer "ann")); Settle 2] in
  let s := run Shop.config (init tt) [Invoke (FetchById "c1")] in
  let s' := run Shop.config s l' in
  (executing (_queue s) = [(inv, p)] /\
   Forall (fun x => x <> Settle (inv_id inv)) l' /\
   _status s = UPDATING) /\
  executing (_queue s') = [(inv, p)] /\
  starts_of (trace s') = starts_of (trace s) /\
  finishes_of (trace s') = finishes_of (trace s) /\
  errors_of (trace s') = errors_of (trace s) /\
  returns_of (trace s') = returns_of (trace s) /\
  _status s' = UPDATING.
Proof.
  intros inv p l' s s'.
  assert (executing (_queue s) = [(inv, p)]) as He by (vm_compute; reflexivity).
  assert (Forall (fun x => x <> Settle (inv_id inv)) l') as Hl
    by (repeat (constructor; [intros [=]|]); constructor).
  assert (_status s = UPDATING) as Hst by (vm_compute; reflexivity).
  destruct (C7_task_that_does_not_settle_is_never_failed Shop.config tt _ l' inv p He Hl)
    as (H1 & H2 & H3 & H4 & H5 & H6).
  exact (conj (conj He (conj Hl Hst))
           (conj H1 (conj H2 (conj H3 (conj H4 (conj H5 (H6 Hst))))))).
Defined.

Lemma C8_fetch_on_a_fresh_class_witness :
  let s := run Shop.config (init tt) [] in
  let n := invocations s in
  let made := invocation_of Shop.config (FetchById "c1") s in
  let s1 := fst (fetch Shop.config "c1" s) in
  let c := {| Shop.id := "c1"; Shop.revision := "r0"; Shop.owner := "" |} in
  let o := Resolves c in
  let s2 := step Shop.config s1 (Settle n) in
  (executing (_queue s) = [] /\
   operations_fetch Shop.config "c1" (backend s) = (o, tt)) /\
  snd (fetch Shop.config "c1" s) = Undefined /\
  trace s2 =
    trace s ++
      [Dispatch (CartStatusChangeEvent UPDATING); Submit n; Start n;
       Call (Fetch "c1"); Finish n o; Dispatch (CartEvent "idle" (_cart s))] ++
      match _cart s with
      | Some c0 =>
          if differs (queries_cartRevisionId Shop.config c0) (_previousCartRevisionId s)
          then [Dispatch (CartEvent "change" (Some c0))]
          else []
      | None => []
      end ++ resumed_events made o /\
  _cart s2 = match o with Resolves c => Some c | Rejects _ => _cart s end /\
  _previousCartRevisionId s2 =
    match o with
    | Resolves c =>
        if differs (queries_cartRevisionId Shop.config c) (inv_currentRevisionId made)
        then inv_currentRevisionId made
        else _previousCartRevisionId s
    | Rejects _ => _previousCartRevisionId s
    end /\
  _status s2 = READY /\
  executing (_queue s2) = [].
Proof.
  intros s n made s1 c o s2.
  assert (executing (_queue s) = []) as He by reflexivity.
  assert (operations_fetch Shop.config "c1" (backend s) = (o, tt)) as Hp
    by reflexivity.
  destruct (C8_fetch_returns_nothing_and_is_serialized Shop.config tt [] "c1")
    as (Hu & _ & _ & _ & _ & H).
  exact (conj (conj He Hp) (conj Hu (H He o tt Hp))).
Defined.

Lemma C9_idle_without_a_snapshot_witness :
  let inv := {| inv_id := 0; inv_operation := CreateWith (Shop.for_buyer "nobody");
                inv_result := None; inv_currentRevisionId := None |} in
  let o := Rejects (Rejected "no such buyer") in
  let s := run Shop.config (init tt) [Invoke (CreateWith (Shop.for_buyer "nobody"))] in
  let s' := step Shop.config s (Settle (inv_id inv)) in
  (executing (_queue s) = [(inv, AtProvider o)] /\ waiting (_queue s) = [] /\
   _cart s = None) /\
  executing (_queue s') = [] /\
  waiting (_queue s') = [] /\
  trace s' =
    trace s ++
      Finish (inv_id inv) o :: Dispatch (CartEvent "idle" None) ::
      resumed_events inv o.
Proof.
  intros inv o s s'.
  assert (executing (_queue s) = [(inv, AtProvider o)]) as He by (vm_compute; reflexivity).
  assert (waiting (_queue s) = []) as Hw by (vm_compute; reflexivity).
  assert (_cart s = None) as Hc by (vm_compute; reflexivity).
  destruct (C9_idle_event_carries_the_snapshot Shop.config tt _ inv o He Hw)
    as (H1 & H2 & _ & H3 & _).
  exact (conj (conj He (conj Hw Hc)) (conj H1 (conj H2 (H3 Hc)))).
Defined.

Lemma C10_second_create_fails_witness :
  let inv := {| inv_id := 1; inv_operation := CreateWith (Shop.for_buyer "nobody");
                inv_result := None; inv_currentRevisionId := None |} in
  let e := Rejected "no such buyer" in
  let s := run Shop.config (init tt) [Invoke (CreateWith no_input)] in
  let s2 := run Shop.config
              (step Shop.config s (Invoke (CreateWith (Shop.for_buyer "nobody"))))
              [Settle 0] in
  let s3 := step Shop.config s2 (Settle (invocations s)) in
  (executing (_queue s2) = [(inv, AtProvider (Rejects e))] /\
   inv_id inv = invocations s) /\
  trace s3 =
    trace s2 ++
      Finish (invocations s) (Rejects e) :: next_events Shop.config s2 ++
      [OnError e; Dispatch (CartStatusChangeEvent READY);
       Return (invocations s) (_cart s)] /\
  returns_of (next_events Shop.config s2) = [] /\
  returns_of (trace s3) = returns_of (trace s2) ++ [(invocations s, _cart s)].
Proof.
  intros inv e s s2 s3.
  assert (executing (_queue s2) = [(inv, AtProvider (Rejects e))]) as He
    by (vm_compute; reflexivity).
  assert (inv_id inv = invocations s) as Hid by (vm_compute; reflexivity).
  exact (conj (conj He Hid)
           (proj1 C10_failed_invocation_returns_the_snapshot_it_read
              _ _ _ _ _ Shop.config tt _ [Settle 0] _ inv e He Hid)).
Defined.

Lemma C2_buyer_changed_after_fetch_witness :
  let s := run Shop.config (init tt) [Invoke (FetchById "c1"); Settle 0] in
  let c := {| Shop.id := "c1"; Shop.revision := "r0"; Shop.owner := "" |} in
  let c' := {| Shop.id := "c1"; Shop.revision := "r0"; Shop.owner := "ann" |} in
  let s' := run Shop.config s [Invoke (EnsureThen (Buyer "ann")); Settle (invocations s)] in
  (executing (_queue s) = [] /\ _cart s = Some c /\
   _previousCartRevisionId s = None /\
   queries_cartRevisionId Shop.config c' = queries_cartRevisionId Shop.config c) /\
  executing (_queue s') = [] /\ waiting (_queue s') = [] /\
  _cart s' = Some c' /\
  _previousCartRevisionId s' = _previousCartRevisionId s /\
  trace s' =
  trace s ++
    [Dispatch (CartStatusChangeEvent UPDATING); Submit (invocations s);
     Start (invocations s); Call (UpdateBuyer c "ann");
     Finish (invocations s) (Resolves c');
     Dispatch (CartEvent "idle" (Some c));
     Dispatch (CartEvent "change" (Some c));
     Dispatch (CartStatusChangeEvent READY); Return (invocations s) (Some c')].
Proof.
  intros s c c' s'.
  assert (executing (_queue s) = []) as He by (vm_compute; reflexivity).
  assert (_cart s = Some c) as Hc by (vm_compute; reflexivity).
  assert (_previousCartRevisionId s = None) as Hprev by (vm_compute; reflexivity).
  assert (differs (queries_cartRevisionId Shop.config c) (_previousCartRevisionId s) = true)
    as Hd by (vm_compute; reflexivity).
  assert (perform Shop.config (UpdateBuyer c "ann") (backend s) = (Resolves c', tt)) as Hp
    by (vm_compute; reflexivity).
  assert (queries_cartRevisionId Shop.config c' = queries_cartRevisionId Shop.config c)
    as Hrev by reflexivity.
  exact (conj (conj He (conj Hc (conj Hprev Hrev)))
           (C2_change_dispatched_for_unchanged_revision Shop.config tt _
              (EnsureThen (Buyer "ann")) (UpdateBuyer c "ann") c c' tt
              He Hc Hd eq_refl Hp Hrev)).
Defined.

(** ** Instances of the further properties *)

Lemma snapshot_is_never_unset_witness :
  is_Some (cart (run Shop.config (init tt) [Invoke (CreateWith no_input); Settle 0])) /\
  is_Some (cart (run Shop.config (init tt)
                   ([Invoke (CreateWith no_input); Settle 0] ++
                    [Invoke (CreateWith (Shop.for_buyer "nobody")); Settle 1]))).
Proof.
  assert (is_Some (cart (run Shop.config (init tt) [Invoke (CreateWith no_input); Settle 0])))
    as H by (eexists; vm_compute; reflexivity).
  exact (conj H (snapshot_is_never_unset Shop.config tt _ _ H)).
Defined.



